(** * Transform algebra of [omnigibson/utils/transform_utils.py]

    A shallow embedding of the quaternion, rotation-matrix, pose, velocity,
    projection and control utilities of the transform library, and the
    properties its specification states about them.

    Data model.  The library computes on 32-bit floating point tensors.  The
    embedding reads every tensor entry as an exact real number ([R] of the
    Standard Library): rounding, overflow and NaN are outside this model, and
    every statement below is a statement about the formulas of the code
    evaluated in exact arithmetic.  Fixed-shape tensors are records
    ([Vec3], [Quat], [Mat3], [Mat4]); a batch or a 1-D data tensor is a list.
    Quaternions are in (x, y, z, w) order throughout, as in the source.
    A failed [assert] is [None]. *)

From Stdlib Require Import String.
From Stdlib Require Import Reals RNsatz Lra Psatz List Lia ZArith Bool.
Import ListNotations.
Open Scope R_scope.

(** ** Comparisons of tensor entries, as booleans *)

Definition ltR (a b : R) : bool := if Rlt_dec a b then true else false.
Definition leR (a b : R) : bool := if Rle_dec a b then true else false.
Definition eqR (a b : R) : bool := if Req_dec_T a b then true else false.

(** ** Tensors of fixed shape *)

Record Vec3 : Type := V3 { v0 : R; v1 : R; v2 : R }.

Record Quat : Type := Q4 { qx : R; qy : R; qz : R; qw : R }.

Record Mat3 : Type := M3 {
  m00 : R; m01 : R; m02 : R;
  m10 : R; m11 : R; m12 : R;
  m20 : R; m21 : R; m22 : R }.

Record Mat4 : Type := M4 {
  h00 : R; h01 : R; h02 : R; h03 : R;
  h10 : R; h11 : R; h12 : R; h13 : R;
  h20 : R; h21 : R; h22 : R; h23 : R;
  h30 : R; h31 : R; h32 : R; h33 : R }.

(** [th.eye(3)] and [th.eye(4)]. *)
Definition eye3 : Mat3 := M3 1 0 0  0 1 0  0 0 1.
Definition eye4 : Mat4 := M4 1 0 0 0  0 1 0 0  0 0 1 0  0 0 0 1.

(** Entry [i, j] of a matrix, for statements quantified over the entries. *)
Definition entry3 (m : Mat3) (i j : nat) : R :=
  match i, j with
  | 0%nat, 0%nat => m00 m | 0%nat, 1%nat => m01 m | 0%nat, 2%nat => m02 m
  | 1%nat, 0%nat => m10 m | 1%nat, 1%nat => m11 m | 1%nat, 2%nat => m12 m
  | 2%nat, 0%nat => m20 m | 2%nat, 1%nat => m21 m | 2%nat, 2%nat => m22 m
  | _, _ => 0
  end.

Definition entry4 (m : Mat4) (i j : nat) : R :=
  match i, j with
  | 0%nat, 0%nat => h00 m | 0%nat, 1%nat => h01 m
  | 0%nat, 2%nat => h02 m | 0%nat, 3%nat => h03 m
  | 1%nat, 0%nat => h10 m | 1%nat, 1%nat => h11 m
  | 1%nat, 2%nat => h12 m | 1%nat, 3%nat => h13 m
  | 2%nat, 0%nat => h20 m | 2%nat, 1%nat => h21 m
  | 2%nat, 2%nat => h22 m | 2%nat, 3%nat => h23 m
  | 3%nat, 0%nat => h30 m | 3%nat, 1%nat => h31 m
  | 3%nat, 2%nat => h32 m | 3%nat, 3%nat => h33 m
  | _, _ => 0
  end.

(** Slices of a homogeneous matrix: [hmat[:3, :3]] and [hmat[:3, 3]]. *)
Definition rot_block (h : Mat4) : Mat3 :=
  M3 (h00 h) (h01 h) (h02 h)
     (h10 h) (h11 h) (h12 h)
     (h20 h) (h21 h) (h22 h).

Definition trans_col (h : Mat4) : Vec3 := V3 (h03 h) (h13 h) (h23 h).

(** Elementary tensor operations. *)
Definition vadd (a b : Vec3) : Vec3 :=
  V3 (v0 a + v0 b) (v1 a + v1 b) (v2 a + v2 b).

Definition vneg (a : Vec3) : Vec3 := V3 (- v0 a) (- v1 a) (- v2 a).

Definition transpose3 (m : Mat3) : Mat3 :=
  M3 (m00 m) (m10 m) (m20 m)
     (m01 m) (m11 m) (m21 m)
     (m02 m) (m12 m) (m22 m).

Definition mneg3 (m : Mat3) : Mat3 :=
  M3 (- m00 m) (- m01 m) (- m02 m)
     (- m10 m) (- m11 m) (- m12 m)
     (- m20 m) (- m21 m) (- m22 m).

(** Matrix-vector and matrix-matrix products ([@], and [.dot] on a 2-D and a
    1-D operand, which the source inherits from its array-library origin). *)
Definition mulMV3 (m : Mat3) (v : Vec3) : Vec3 :=
  V3 (m00 m * v0 v + m01 m * v1 v + m02 m * v2 v)
     (m10 m * v0 v + m11 m * v1 v + m12 m * v2 v)
     (m20 m * v0 v + m21 m * v1 v + m22 m * v2 v).

Definition matmul3 (a b : Mat3) : Mat3 :=
  M3 (m00 a * m00 b + m01 a * m10 b + m02 a * m20 b)
     (m00 a * m01 b + m01 a * m11 b + m02 a * m21 b)
     (m00 a * m02 b + m01 a * m12 b + m02 a * m22 b)
     (m10 a * m00 b + m11 a * m10 b + m12 a * m20 b)
     (m10 a * m01 b + m11 a * m11 b + m12 a * m21 b)
     (m10 a * m02 b + m11 a * m12 b + m12 a * m22 b)
     (m20 a * m00 b + m21 a * m10 b + m22 a * m20 b)
     (m20 a * m01 b + m21 a * m11 b + m22 a * m21 b)
     (m20 a * m02 b + m21 a * m12 b + m22 a * m22 b).

Definition matmul4 (a b : Mat4) : Mat4 :=
  M4 (h00 a * h00 b + h01 a * h10 b + h02 a * h20 b + h03 a * h30 b)
     (h00 a * h01 b + h01 a * h11 b + h02 a * h21 b + h03 a * h31 b)
     (h00 a * h02 b + h01 a * h12 b + h02 a * h22 b + h03 a * h32 b)
     (h00 a * h03 b + h01 a * h13 b + h02 a * h23 b + h03 a * h33 b)
     (h10 a * h00 b + h11 a * h10 b + h12 a * h20 b + h13 a * h30 b)
     (h10 a * h01 b + h11 a * h11 b + h12 a * h21 b + h13 a * h31 b)
     (h10 a * h02 b + h11 a * h12 b + h12 a * h22 b + h13 a * h32 b)
     (h10 a * h03 b + h11 a * h13 b + h12 a * h23 b + h13 a * h33 b)
     (h20 a * h00 b + h21 a * h10 b + h22 a * h20 b + h23 a * h30 b)
     (h20 a * h01 b + h21 a * h11 b + h22 a * h21 b + h23 a * h31 b)
     (h20 a * h02 b + h21 a * h12 b + h22 a * h22 b + h23 a * h32 b)
     (h20 a * h03 b + h21 a * h13 b + h22 a * h23 b + h23 a * h33 b)
     (h30 a * h00 b + h31 a * h10 b + h32 a * h20 b + h33 a * h30 b)
     (h30 a * h01 b + h31 a * h11 b + h32 a * h21 b + h33 a * h31 b)
     (h30 a * h02 b + h31 a * h12 b + h32 a * h22 b + h33 a * h32 b)
     (h30 a * h03 b + h31 a * h13 b + h32 a * h23 b + h33 a * h33 b).

(** [th.allclose(a, b, rtol, atol)] on 3x3 tensors: every entry satisfies
    [|a - b| <= atol + rtol * |b|]. *)
Definition close (rtol atol a b : R) : bool :=
  leR (Rabs (a - b)) (atol + rtol * Rabs b).

Definition allclose3 (a b : Mat3) (rtol atol : R) : bool :=
  close rtol atol (m00 a) (m00 b) && close rtol atol (m01 a) (m01 b) &&
  close rtol atol (m02 a) (m02 b) && close rtol atol (m10 a) (m10 b) &&
  close rtol atol (m11 a) (m11 b) && close rtol atol (m12 a) (m12 b) &&
  close rtol atol (m20 a) (m20 b) && close rtol atol (m21 a) (m21 b) &&
  close rtol atol (m22 a) (m22 b).

(** ** Quaternion algebra *)

(** [th.norm] of a 4-vector. *)
Definition qnorm (q : Quat) : R :=
  sqrt (qx q * qx q + qy q * qy q + qz q * qz q + qw q * qw q).

Definition qscale (c : R) (q : Quat) : Quat :=
  Q4 (qx q * c) (qy q * c) (qz q * c) (qw q * c).

Definition qdiv (q : Quat) (c : R) : Quat :=
  Q4 (qx q / c) (qy q / c) (qz q / c) (qw q / c).

Definition qneg (q : Quat) : Quat :=
  Q4 (- qx q) (- qy q) (- qz q) (- qw q).

(** The data-model invariant of a quaternion: unit L2 norm. *)
Definition unit_quat (q : Quat) : Prop :=
  qx q * qx q + qy q * qy q + qz q * qz q + qw q * qw q = 1.

(** ** Rotation conversions *)

(** [quat2mat], for one quaternion.  [q] is the quaternion reordered to
    (w, x, y, z); rows whose squared norm [n] is zero keep the identity. *)
Definition quat2mat (quaternion : Quat) : Mat3 :=
  let q0 := qw quaternion in
  let q1 := qx quaternion in
  let q2 := qy quaternion in
  let q3 := qz quaternion in
  let n := q0 * q0 + q1 * q1 + q2 * q2 + q3 * q3 in
  if eqR n 0 then eye3
  else
    let s := sqrt (2 / n) in
    let q_0 := q0 * s in
    let q_1 := q1 * s in
    let q_2 := q2 * s in
    let q_3 := q3 * s in
    M3 (1 - q_2 * q_2 - q_3 * q_3) (q_1 * q_2 - q_3 * q_0) (q_1 * q_3 + q_2 * q_0)
       (q_1 * q_2 + q_3 * q_0) (1 - q_1 * q_1 - q_3 * q_3) (q_2 * q_3 - q_1 * q_0)
       (q_1 * q_3 - q_2 * q_0) (q_2 * q_3 + q_1 * q_0) (1 - q_1 * q_1 - q_2 * q_2).

(** The branch of [mat2quat] taken when the matrix is not close to the
    identity: the trace-based selection of the largest component. *)
Definition mat2quat_branches (rmat : Mat3) : Quat :=
  let trace := m00 rmat + m11 rmat + m22 rmat in
  if ltR 0 trace then
    let s := 2 * sqrt (trace + 1) in
    Q4 ((m21 rmat - m12 rmat) / s) ((m02 rmat - m20 rmat) / s)
       ((m10 rmat - m01 rmat) / s) (0.25 * s)
  else if ltR (m11 rmat) (m00 rmat) && ltR (m22 rmat) (m00 rmat) then
    let s := 2 * sqrt (1 + m00 rmat - m11 rmat - m22 rmat) in
    Q4 (0.25 * s) ((m01 rmat + m10 rmat) / s)
       ((m02 rmat + m20 rmat) / s) ((m21 rmat - m12 rmat) / s)
  else if ltR (m22 rmat) (m11 rmat) then
    let s := 2 * sqrt (1 + m11 rmat - m00 rmat - m22 rmat) in
    Q4 ((m01 rmat + m10 rmat) / s) (0.25 * s)
       ((m12 rmat + m21 rmat) / s) ((m02 rmat - m20 rmat) / s)
  else
    let s := 2 * sqrt (1 + m22 rmat - m00 rmat - m11 rmat) in
    Q4 ((m02 rmat + m20 rmat) / s) ((m12 rmat + m21 rmat) / s)
       (0.25 * s) ((m10 rmat - m01 rmat) / s).

(** [mat2quat]: the identity shortcut ([th.allclose] with [atol=1e-6] and the
    default [rtol=1e-5]), else the branches; the result is normalised. *)
Definition mat2quat (rmat : Mat3) : Quat :=
  let quat :=
    if allclose3 rmat eye3 1e-5 1e-6 then Q4 0 0 0 1
    else mat2quat_branches rmat in
  qdiv quat (qnorm quat).

(** ** Pose algebra *)

(** [pose2mat]: [th.eye(4)] with the rotation block and the translation
    column overwritten. *)
Definition pose2mat (pose : Vec3 * Quat) : Mat4 :=
  let (pos, orn) := pose in
  let r := quat2mat orn in
  M4 (m00 r) (m01 r) (m02 r) (v0 pos)
     (m10 r) (m11 r) (m12 r) (v1 pos)
     (m20 r) (m21 r) (m22 r) (v2 pos)
     0 0 0 1.

Definition mat2pose (hmat : Mat4) : Vec3 * Quat :=
  (trans_col hmat, mat2quat (rot_block hmat)).

(** [pose_transform]: [pose1 @ pose0], converted back to position and
    quaternion. *)
Definition pose_transform (pos1 : Vec3) (quat1 : Quat)
    (pos0 : Vec3) (quat0 : Quat) : Vec3 * Quat :=
  let mat0 := pose2mat (pos0, quat0) in
  let mat1 := pose2mat (pos1, quat1) in
  mat2pose (matmul4 mat1 mat0).

(** [pose_inv]: zeros, then the transposed rotation block, the translation
    [(-R^T) @ t], and the corner 1. *)
Definition pose_inv (pose_mat : Mat4) : Mat4 :=
  let rt := transpose3 (rot_block pose_mat) in
  let t := mulMV3 (mneg3 rt) (trans_col pose_mat) in
  M4 (m00 rt) (m01 rt) (m02 rt) (v0 t)
     (m10 rt) (m11 rt) (m12 rt) (v1 t)
     (m20 rt) (m21 rt) (m22 rt) (v2 t)
     0 0 0 1.


(** A valid pose of the data model: the rotation block has orthonormal
    columns ([R^T R = I]) and determinant +1, and the bottom row is
    (0, 0, 0, 1). *)
Definition det3 (r : Mat3) : R :=
  m00 r * (m11 r * m22 r - m12 r * m21 r)
  - m01 r * (m10 r * m22 r - m12 r * m20 r)
  + m02 r * (m10 r * m21 r - m11 r * m20 r).

Definition orthonormal (r : Mat3) : Prop :=
  matmul3 (transpose3 r) r = eye3.

Definition valid_pose (p : Mat4) : Prop :=
  orthonormal (rot_block p) /\ det3 (rot_block p) = 1 /\
  h30 p = 0 /\ h31 p = 0 /\ h32 p = 0 /\ h33 p = 1.

(** A sample valid pose: the quarter turn about z, translated by (1,2,3). *)
Definition quarter_turn_pose : Mat4 :=
  M4 0 (-1) 0 1
     1 0 0 2
     0 0 1 3
     0 0 0 1.

(** ** Velocity transport between frames *)

Definition cross (a b : Vec3) : Vec3 :=
  V3 (v1 a * v2 b - v2 a * v1 b)
     (v2 a * v0 b - v0 a * v2 b)
     (v0 a * v1 b - v1 a * v0 b).



(** ** Spherical interpolation *)

Definition dot4 (a b : Quat) : R :=
  qx a * qx b + qy a * qy b + qz a * qz b + qw a * qw b.

Definition qadd (a b : Quat) : Quat :=
  Q4 (qx a + qx b) (qy a + qy b) (qz a + qz b) (qw a + qw b).

(** [unit_vector] on the 2-D tensor [quat.reshape(-1, 4)] with [dim=-1]:
    the row divided by its length plus 1e-8. *)
Definition unit_vector (data : Quat) : Quat :=
  let length := sqrt (dot4 data data) in
  qdiv data (length + 1e-8).

(** [th.clip]. *)
Definition clip (x lo hi : R) : R := Rmin (Rmax x lo) hi.

(** The pieces of [quat_slerp], in the order the source computes them:
    the dot product of the normalised inputs, the end quaternion after the
    shortest-path negation, the dot product after [th.abs], the angle. *)
Definition slerp_d (quat0 quat1 : Quat) : R :=
  dot4 (unit_vector quat0) (unit_vector quat1).

Definition slerp_quat1 (quat0 quat1 : Quat) (shortestpath : bool) : Quat :=
  if shortestpath then
    if ltR (slerp_d quat0 quat1) 0 then qneg (unit_vector quat1)
    else unit_vector quat1
  else unit_vector quat1.

Definition slerp_d' (quat0 quat1 : Quat) (shortestpath : bool) : R :=
  if shortestpath then Rabs (slerp_d quat0 quat1) else slerp_d quat0 quat1.

Definition slerp_angle (quat0 quat1 : Quat) (shortestpath : bool) : R :=
  acos (clip (slerp_d' quat0 quat1 shortestpath) (-1) 1).

(** [quat_slerp] for one pair of quaternions and one fraction; the defaults
    of the source are [shortestpath = true] and [eps = 1e-15]. *)
Definition quat_slerp (quat0 quat1 : Quat) (frac : R)
    (shortestpath : bool) (eps : R) : Quat :=
  let q0 := unit_vector quat0 in
  let where_start := leR frac 0 in
  let where_end := leR 1 frac in
  let q1 := slerp_quat1 quat0 quat1 shortestpath in
  let d := slerp_d' quat0 quat1 shortestpath in
  let angle := slerp_angle quat0 quat1 shortestpath in
  let where_small_diff := ltR (Rabs (Rabs d - 1)) eps in
  let where_small_angle := ltR (Rabs angle) eps in
  let isin := 1 / sin angle in
  let val :=
    qadd (qscale isin (qscale (sin ((1 - frac) * angle)) q0))
         (qscale isin (qscale (sin (frac * angle)) q1)) in
  if where_small_diff || where_small_angle || where_start then q0
  else if where_end then q1
  else val.

(** ** Euler angles *)








(** ** Projection matrices *)

(** [frustum]: three asserts, then a zero matrix with seven entries set. *)
Definition frustum (left right bottom top znear zfar : R) : option Mat4 :=
  if eqR right left then None
  else if eqR bottom top then None
  else if eqR znear zfar then None
  else Some
    (M4 (2 * znear / (right - left)) 0 0 0
        0 (2 * znear / (top - bottom)) 0 0
        ((right + left) / (right - left)) ((top + bottom) / (top - bottom))
          (- (zfar + znear) / (zfar - znear)) (-1)
        0 0 (-2 * znear * zfar / (zfar - znear)) 0).

Definition ortho (left right bottom top znear zfar : R) : option Mat4 :=
  if eqR right left then None
  else if eqR bottom top then None
  else if eqR znear zfar then None
  else Some
    (M4 (2 / (right - left)) 0 0 0
        0 (2 / (top - bottom)) 0 0
        0 0 (-2 / (zfar - znear)) 0
        (- (right + left) / (right - left)) (- (top + bottom) / (top - bottom))
          (- (zfar + znear) / (zfar - znear)) 1).

(** The half-height and half-width [h], [w] that [perspective] derives from
    the vertical field of view (degrees) and the aspect ratio. *)
Definition perspective_h (fovy znear : R) : R := tan (fovy / 360 * PI) * znear.

Definition perspective_w (fovy aspect znear : R) : R :=
  perspective_h fovy znear * aspect.

Definition perspective (fovy aspect znear zfar : R) : option Mat4 :=
  if eqR znear zfar then None
  else
    let h := perspective_h fovy znear in
    let w := perspective_w fovy aspect znear in
    frustum (- w) w (- h) h znear zfar.

(** A degenerate set of clip planes: two opposite planes coincide. *)
Definition degenerate (left right bottom top znear zfar : R) : Prop :=
  left = right \/ bottom = top \/ znear = zfar.

(** ** Exponential moving average *)

(** Elementwise operation on two 1-D tensors of the same length. *)
Fixpoint map2 {A B C : Type} (f : A -> B -> C) (a : list A) (b : list B)
    : list C :=
  match a, b with
  | x :: a', y :: b' => f x y :: map2 f a' b'
  | _, _ => []
  end.







(** ** Right-angle classification *)

(** [th.abs(quat).sum(dim=-1)]. *)
Definition l1_norm (quat : Quat) : R :=
  Rabs (qx quat) + Rabs (qy quat) + Rabs (qz quat) + Rabs (qw quat).

(** The reference norms tensor of [check_quat_right_angle]. *)
Definition reference_norms : list R := [1.0; 1.414; 2.0].

(** [check_quat_right_angle] for one quaternion; the default [atol] of the
    source is 5e-2. *)
Definition check_quat_right_angle (quat : Quat) (atol : R) : bool :=
  existsb (fun r => ltR (Rabs (l1_norm quat - r)) atol) reference_norms.

(** ** Quaternion products and the orientation error *)

(** [quat_mul(a, b)], one row: the product in its eight-multiplication
    form. *)
Definition quat_mul (a b : Quat) : Quat :=
  let x1 := qx a in let y1 := qy a in let z1 := qz a in let w1 := qw a in
  let x2 := qx b in let y2 := qy b in let z2 := qz b in let w2 := qw b in
  let ww := (z1 + x1) * (x2 + y2) in
  let yy := (w1 - y1) * (w2 + z2) in
  let zz := (w1 + y1) * (w2 - z2) in
  let xx := ww + yy + zz in
  let qq := 0.5 * (xx + (z1 - x1) * (x2 - y2)) in
  let w := qq - ww + (z1 - y1) * (y2 - z2) in
  let x := qq - xx + (x1 + w1) * (x2 + w2) in
  let y := qq - yy + (w1 - x1) * (y2 + z2) in
  let z := qq - zz + (z1 + y1) * (w2 - x2) in
  Q4 x y z w.

(** [quat_multiply(quaternion1, quaternion0)]: the Hamilton product
    [q1 * q0]. *)
Definition quat_multiply (quaternion1 quaternion0 : Quat) : Quat :=
  let x0 := qx quaternion0 in let y0 := qy quaternion0 in
  let z0 := qz quaternion0 in let w0 := qw quaternion0 in
  let x1 := qx quaternion1 in let y1 := qy quaternion1 in
  let z1 := qz quaternion1 in let w1 := qw quaternion1 in
  Q4 (x1 * w0 + y1 * z0 - z1 * y0 + w1 * x0)
     (- x1 * z0 + y1 * w0 + z1 * x0 + w1 * y0)
     (x1 * y0 - y1 * x0 + z1 * w0 + w1 * z0)
     (- x1 * x0 - y1 * y0 - z1 * z0 + w1 * w0).






(** ** Quaternion conventions *)

(** [convert_quat]: reorders a 4-array between (w,x,y,z) and (x,y,z,w);
    any other target raises [ValueError], here [None]. *)
Definition convert_quat (q : R * R * R * R) (to : String.string)
    : option (R * R * R * R) :=
  let '(q0, q1, q2, q3) := q in
  if String.eqb to "xyzw"%string then Some (q1, q2, q3, q0)
  else if String.eqb to "wxyz"%string then Some (q3, q0, q1, q2)
  else None.

(** ** Pose composition helpers of the source *)


(** [make_pose]: zeros, then the rotation block, the translation column and
    the corner 1. *)
Definition make_pose (translation : Vec3) (rotation : Mat3) : Mat4 :=
  M4 (m00 rotation) (m01 rotation) (m02 rotation) (v0 translation)
     (m10 rotation) (m11 rotation) (m12 rotation) (v1 translation)
     (m20 rotation) (m21 rotation) (m22 rotation) (v2 translation)
     0 0 0 1.

Definition invert_pose_transform (pos : Vec3) (quat : Quat) : Vec3 * Quat :=
  let mat := pose2mat (pos, quat) in
  mat2pose (pose_inv mat).

Definition relative_pose_transform (pos1 : Vec3) (quat1 : Quat)
    (pos0 : Vec3) (quat0 : Quat) : Vec3 * Quat :=
  let mat0 := pose2mat (pos0, quat0) in
  let mat1 := pose2mat (pos1, quat1) in
  mat2pose (matmul4 (pose_inv mat0) mat1).

(** The matrix of cofactors of a 3x3 matrix. *)
Definition cofactor3 (r : Mat3) : Mat3 :=
  M3 (m11 r * m22 r - m12 r * m21 r)
     (m12 r * m20 r - m10 r * m22 r)
     (m10 r * m21 r - m11 r * m20 r)
     (m02 r * m21 r - m01 r * m22 r)
     (m00 r * m22 r - m02 r * m20 r)
     (m01 r * m20 r - m00 r * m21 r)
     (m01 r * m12 r - m02 r * m11 r)
     (m02 r * m10 r - m00 r * m12 r)
     (m00 r * m11 r - m01 r * m10 r).

Definition vsub (a b : Vec3) : Vec3 :=
  V3 (v0 a - v0 b) (v1 a - v1 b) (v2 a - v2 b).

Definition vscale (c : R) (a : Vec3) : Vec3 :=
  V3 (c * v0 a) (c * v1 a) (c * v2 a).


(** ** More rotation conversions *)

(** [quat_apply]: rotate a vector by a quaternion. *)
Definition quat_apply (quat : Quat) (vec : Vec3) : Vec3 :=
  let t :=
    V3 (2 * (qy quat * v2 vec - qz quat * v1 vec))
       (2 * (qz quat * v0 vec - qx quat * v2 vec))
       (2 * (qx quat * v1 vec - qy quat * v0 vec)) in
  vadd (vadd vec (vscale (qw quat) t))
       (cross (V3 (qx quat) (qy quat) (qz quat)) t).

(** [euler2quat] on one (roll, pitch, yaw) triple. *)
Definition euler2quat (euler : Vec3) : Quat :=
  let roll := v0 euler in
  let pitch := v1 euler in
  let yaw := v2 euler in
  let cy := cos (yaw * 0.5) in
  let sy := sin (yaw * 0.5) in
  let cr := cos (roll * 0.5) in
  let sr := sin (roll * 0.5) in
  let cp := cos (pitch * 0.5) in
  let sp := sin (pitch * 0.5) in
  let qw := cy * cr * cp + sy * sr * sp in
  let qx := cy * sr * cp - sy * cr * sp in
  let qy := cy * cr * sp + sy * sr * cp in
  let qz := sy * cr * cp - cy * sr * sp in
  Q4 qx qy qz qw.

Definition euler2mat (euler : Vec3) : Mat3 := quat2mat (euler2quat euler).

(** [th.norm] of a 3-vector. *)
Definition vnorm (v : Vec3) : R :=
  sqrt (v0 v * v0 v + v1 v * v1 v + v2 v * v2 v).

(** [axisangle2quat] on one axis-angle vector; the default [eps] is 1e-6.
    Rows whose angle is not above [eps] keep the identity quaternion. *)
Definition axisangle2quat (vec : Vec3) (eps : R) : Quat :=
  let angle := vnorm vec in
  if ltR eps angle then
    Q4 (v0 vec * sin (angle / 2) / angle)
       (v1 vec * sin (angle / 2) / angle)
       (v2 vec * sin (angle / 2) / angle)
       (cos (angle / 2))
  else Q4 0 0 0 1.

(** [quat2axisangle] on one quaternion: the scalar part is clamped to
    [-1, 1]; rows whose [den] is zero keep the zero vector. *)
Definition quat2axisangle (quat : Quat) : Vec3 :=
  let w := clip (qw quat) (-1) 1 in
  let den := sqrt (1 - w * w) in
  if eqR den 0 then V3 0 0 0
  else
    V3 (qx quat * 2 * acos w / den)
       (qy quat * 2 * acos w / den)
       (qz quat * 2 * acos w / den).

Definition deg2rad (deg : R) : R := deg * PI / 180.

Definition rad2deg (rad : R) : R := rad * 180 / PI.

(** ** Norms and clipping of n-dimensional vectors *)

(** Sum of squares and [th.norm] of a 1-D tensor. *)
Definition sumsq (v : list R) : R := fold_right (fun x s => x * x + s) 0 v.

Definition anorm (v : list R) : R := sqrt (sumsq v).

(** [normalize]: divide by the norm, or by [eps] when the norm is below it;
    the default [eps] is 1e-10. *)
Definition normalize (v : list R) (eps : R) : list R :=
  let norm := anorm v in
  let d := if ltR norm eps then eps else norm in
  map (fun x => x / d) v.

(** [clip_translation]: rescale to [limit] when the norm exceeds it. *)
Definition clip_translation (dpos : list R) (limit : R) : list R * bool :=
  let input_norm := anorm dpos in
  if ltR limit input_norm
  then (map (fun x => x * limit / input_norm) dpos, true)
  else (dpos, false).

(** [l2_distance]. *)
Definition l2_distance (a b : list R) : R := anorm (map2 Rminus a b).

(** ** Pose error *)

Definition col3 (h : Mat4) (j : nat) : Vec3 :=
  match j with
  | 0%nat => V3 (h00 h) (h10 h) (h20 h)
  | 1%nat => V3 (h01 h) (h11 h) (h21 h)
  | _ => V3 (h02 h) (h12 h) (h22 h)
  end.

(** [get_pose_error]: position difference, then half the sum of the cross
    products of corresponding rotation columns; a 6-vector. *)
Definition get_pose_error (target_pose current_pose : Mat4) : list R :=
  let pos_err := vsub (trans_col target_pose) (trans_col current_pose) in
  let r1 := col3 current_pose 0 in
  let r2 := col3 current_pose 1 in
  let r3 := col3 current_pose 2 in
  let r1d := col3 target_pose 0 in
  let r2d := col3 target_pose 1 in
  let r3d := col3 target_pose 2 in
  let rot_err :=
    vscale 0.5 (vadd (vadd (cross r1 r1d) (cross r2 r2d)) (cross r3 r3d)) in
  [v0 pos_err; v1 pos_err; v2 pos_err; v0 rot_err; v1 rot_err; v2 rot_err].

(** ** Rotation clipping and axis rotations *)


(** [rotation_matrix]: [R = cos a * I + (1 - cos a) * d d^T + skew(sin a * d)]
    for the normalised direction [d], in a homogeneous matrix; with a
    [point], the translation is [point - R point]. *)
Definition rotation_matrix (angle : R) (direction : Vec3)
    (point : option Vec3) : Mat4 :=
  let sina := sin angle in
  let cosa := cos angle in
  let n := vnorm direction in
  let d0 := v0 direction / n in
  let d1 := v1 direction / n in
  let d2 := v2 direction / n in
  let r :=
    M3 (1 * cosa + d0 * d0 * (1 - cosa) + 0)
       (0 * cosa + d0 * d1 * (1 - cosa) + - (d2 * sina))
       (0 * cosa + d0 * d2 * (1 - cosa) + d1 * sina)
       (0 * cosa + d1 * d0 * (1 - cosa) + d2 * sina)
       (1 * cosa + d1 * d1 * (1 - cosa) + 0)
       (0 * cosa + d1 * d2 * (1 - cosa) + - (d0 * sina))
       (0 * cosa + d2 * d0 * (1 - cosa) + - (d1 * sina))
       (0 * cosa + d2 * d1 * (1 - cosa) + d0 * sina)
       (1 * cosa + d2 * d2 * (1 - cosa) + 0) in
  let t :=
    match point with
    | Some p => vsub p (mulMV3 r p)
    | None => V3 0 0 0
    end in
  make_pose t r.

(** * Properties *)

(** ** Boolean comparisons reflect the order of the reals *)

Lemma ltR_true (a b : R) : ltR a b = true <-> a < b.
Proof. unfold ltR; destruct (Rlt_dec a b); split; intros; try easy. Qed.

Lemma ltR_false (a b : R) : ltR a b = false <-> b <= a.
Proof.
  unfold ltR; destruct (Rlt_dec a b); split; intros; try easy; lra.
Qed.

Lemma leR_true (a b : R) : leR a b = true <-> a <= b.
Proof. unfold leR; destruct (Rle_dec a b); split; intros; try easy. Qed.

Lemma leR_false (a b : R) : leR a b = false <-> b < a.
Proof.
  unfold leR; destruct (Rle_dec a b); split; intros; try easy; lra.
Qed.

Lemma eqR_true (a b : R) : eqR a b = true <-> a = b.
Proof. unfold eqR; destruct (Req_dec_T a b); split; intros; try easy. Qed.

Lemma eqR_false (a b : R) : eqR a b = false <-> a <> b.
Proof. unfold eqR; destruct (Req_dec_T a b); split; intros; try easy. Qed.

(** ** Frame hierarchy: composing a scene offset with a local pose *)

Lemma quat2mat_identity : quat2mat (Q4 0 0 0 1) = eye3.
Proof.
  unfold quat2mat; cbn [qx qy qz qw].
  destruct (eqR (1 * 1 + 0 * 0 + 0 * 0 + 0 * 0) 0) eqn:E.
  - apply eqR_true in E; lra.
  - unfold eye3; f_equal; ring.
Qed.

Lemma close_refl (rtol atol a : R) :
  0 <= rtol -> 0 <= atol -> close rtol atol a a = true.
Proof.
  intros Hr Ha; unfold close; apply leR_true.
  replace (a - a) with 0 by ring; rewrite Rabs_R0.
  pose proof (Rabs_pos a); nra.
Qed.

Lemma mat2quat_identity : mat2quat eye3 = Q4 0 0 0 1.
Proof.
  unfold mat2quat, allclose3; cbn [eye3 m00 m01 m02 m10 m11 m12 m20 m21 m22].
  rewrite !close_refl by lra; cbn [andb].
  unfold qdiv, qnorm; cbn [qx qy qz qw].
  replace (0 * 0 + 0 * 0 + 0 * 0 + 1 * 1) with 1 by ring.
  rewrite sqrt_1; f_equal; field.
Qed.

(** C1.  Forward composition of a scene offset S with a scene-frame pose L
    is the homogeneous product [pose2mat S @ pose2mat L] read back as a pose:
    the world position is [pos_S + R(quat_S) pos_L] and the world orientation
    is [mat2quat] of the product of the two rotation blocks.  For the offset
    (10,0,0) and the local position (1,1,1), both with identity orientation,
    the world pose is exactly position (11,1,1), orientation (0,0,0,1). *)
Theorem pose_transform_frame_hierarchy :
  (forall (pos_S : Vec3) (quat_S : Quat) (pos_L : Vec3) (quat_L : Quat),
      pose_transform pos_S quat_S pos_L quat_L =
      (vadd (mulMV3 (quat2mat quat_S) pos_L) pos_S,
       mat2quat (matmul3 (quat2mat quat_S) (quat2mat quat_L)))) /\
  pose_transform (V3 10 0 0) (Q4 0 0 0 1) (V3 1 1 1) (Q4 0 0 0 1) =
  (V3 11 1 1, Q4 0 0 0 1).
Proof.
  assert (G : forall pos_S quat_S pos_L quat_L,
             pose_transform pos_S quat_S pos_L quat_L =
             (vadd (mulMV3 (quat2mat quat_S) pos_L) pos_S,
              mat2quat (matmul3 (quat2mat quat_S) (quat2mat quat_L)))).
  { intros pS qS pL qL.
    unfold pose_transform, mat2pose, pose2mat.
    generalize (quat2mat qS) (quat2mat qL); intros [a b c d e f g h i] [a' b' c' d' e' f' g' h' i'].
    destruct pS as [s0 s1 s2], pL as [l0 l1 l2].
    unfold trans_col, rot_block, matmul4, matmul3, vadd, mulMV3; cbn.
    f_equal; [f_equal; ring | f_equal; f_equal; ring]. }
  split; [exact G|].
  rewrite G, quat2mat_identity.
  replace (matmul3 eye3 eye3) with eye3 by (unfold matmul3, eye3; cbn; f_equal; ring).
  rewrite mat2quat_identity.
  unfold vadd, mulMV3, eye3; cbn; f_equal; f_equal; ring.
Qed.

(** ** Quaternion / rotation-matrix round trip *)

(** For a unit quaternion the scale factor is [sqrt 2] and the matrix has
    the familiar closed form. *)
Lemma quat2mat_unit (q : Quat) :
  unit_quat q ->
  quat2mat q =
  M3 (1 - 2 * (qy q * qy q + qz q * qz q))
     (2 * (qx q * qy q - qz q * qw q))
     (2 * (qx q * qz q + qy q * qw q))
     (2 * (qx q * qy q + qz q * qw q))
     (1 - 2 * (qx q * qx q + qz q * qz q))
     (2 * (qy q * qz q - qx q * qw q))
     (2 * (qx q * qz q - qy q * qw q))
     (2 * (qy q * qz q + qx q * qw q))
     (1 - 2 * (qx q * qx q + qy q * qy q)).
Proof.
  destruct q as [x y z w]; unfold unit_quat, quat2mat; cbn [qx qy qz qw].
  intros U.
  replace (w * w + x * x + y * y + z * z) with 1 by lra.
  destruct (eqR 1 0) eqn:E; [apply eqR_true in E; lra|].
  replace (2 / 1) with 2 by field.
  assert (Hs : sqrt 2 * sqrt 2 = 2) by (apply sqrt_sqrt; lra).
  f_equal; ring [Hs].
Qed.

Lemma quat2mat_qneg (q : Quat) : quat2mat (qneg q) = quat2mat q.
Proof.
  destruct q as [x y z w]; unfold quat2mat, qneg; cbn [qx qy qz qw].
  replace (- w * - w + - x * - x + - y * - y + - z * - z)
    with (w * w + x * x + y * y + z * z) by ring.
  destruct (eqR _ 0); [reflexivity|].
  f_equal; ring.
Qed.

Lemma sqrt_4sq_pos (t : R) : 0 < t -> 2 * sqrt (4 * (t * t)) = 4 * t.
Proof.
  intros Ht.
  replace (4 * (t * t)) with ((2 * t) * (2 * t)) by ring.
  rewrite sqrt_square by lra; ring.
Qed.

Lemma sqrt_4sq_neg (t : R) : t < 0 -> 2 * sqrt (4 * (t * t)) = - (4 * t).
Proof.
  intros Ht.
  replace (4 * (t * t)) with ((- (2 * t)) * (- (2 * t))) by ring.
  rewrite sqrt_square by lra; ring.
Qed.

(** Outside the identity shortcut, the trace-based branches return the
    quaternion itself or its negation. *)
Lemma mat2quat_branches_unit (q : Quat) :
  unit_quat q ->
  mat2quat_branches (quat2mat q) = q \/
  mat2quat_branches (quat2mat q) = qneg q.
Proof.
  intros U; rewrite (quat2mat_unit q U).
  destruct q as [x y z w]; unfold unit_quat in U; cbn [qx qy qz qw] in *.
  unfold mat2quat_branches, qneg;
    cbn [m00 m01 m02 m10 m11 m12 m20 m21 m22 qx qy qz qw].
  set (a := 1 - 2 * (y * y + z * z)).
  set (b := 1 - 2 * (x * x + z * z)).
  set (c := 1 - 2 * (x * x + y * y)).
  assert (Ea : a = 1 - 2 * (y * y + z * z)) by reflexivity.
  assert (Eb : b = 1 - 2 * (x * x + z * z)) by reflexivity.
  assert (Ec : c = 1 - 2 * (x * x + y * y)) by reflexivity.
  clearbody a b c.
  destruct (ltR 0 (a + b + c)) eqn:T.
  { apply ltR_true in T.
    replace (a + b + c + 1) with (4 * (w * w)) by lra.
    destruct (Rtotal_order w 0) as [Hw | [Hw | Hw]].
    - right; rewrite (sqrt_4sq_neg w Hw); f_equal; first [lra | field; lra].
    - subst w; lra.
    - left; rewrite (sqrt_4sq_pos w Hw); f_equal; first [lra | field; lra]. }
  apply ltR_false in T.
  destruct (ltR b a && ltR c a) eqn:B1.
  { apply andb_true_iff in B1; destruct B1 as [B1 B1'].
    apply ltR_true in B1; apply ltR_true in B1'.
    replace (1 + a - b - c) with (4 * (x * x)) by lra.
    destruct (Rtotal_order x 0) as [Hx | [Hx | Hx]].
    - right; rewrite (sqrt_4sq_neg x Hx); f_equal; first [lra | field; lra].
    - subst x; nra.
    - left; rewrite (sqrt_4sq_pos x Hx); f_equal; first [lra | field; lra]. }
  destruct (ltR c b) eqn:B2.
  { apply ltR_true in B2.
    replace (1 + b - a - c) with (4 * (y * y)) by lra.
    destruct (Rtotal_order y 0) as [Hy | [Hy | Hy]].
    - right; rewrite (sqrt_4sq_neg y Hy); f_equal; first [lra | field; lra].
    - subst y; nra.
    - left; rewrite (sqrt_4sq_pos y Hy); f_equal; first [lra | field; lra]. }
  apply ltR_false in B2.
  assert (Hxz : x * x <= z * z).
  { apply andb_false_iff in B1; destruct B1 as [B1 | B1];
      apply ltR_false in B1; lra. }
  replace (1 + c - a - b) with (4 * (z * z)) by lra.
  destruct (Rtotal_order z 0) as [Hz | [Hz | Hz]].
  - right; rewrite (sqrt_4sq_neg z Hz); f_equal; first [lra | field; lra].
  - subst z; nra.
  - left; rewrite (sqrt_4sq_pos z Hz); f_equal; first [lra | field; lra].
Qed.

Lemma qdiv_qnorm_unit (q : Quat) : unit_quat q -> qdiv q (qnorm q) = q.
Proof.
  destruct q as [x y z w]; unfold unit_quat, qdiv, qnorm; cbn [qx qy qz qw].
  intros U; rewrite U, sqrt_1; f_equal; field.
Qed.

Lemma unit_quat_qneg (q : Quat) : unit_quat q -> unit_quat (qneg q).
Proof.
  destruct q as [x y z w]; unfold unit_quat, qneg; cbn [qx qy qz qw]; lra.
Qed.

Lemma close_spec (rtol atol a b : R) :
  close rtol atol a b = true <-> - (atol + rtol * Rabs b) <= a - b <= atol + rtol * Rabs b.
Proof.
  unfold close; rewrite leR_true; split.
  - intros H.
    pose proof (Rle_abs (a - b)) as H1.
    pose proof (Rle_abs (- (a - b))) as H2.
    rewrite Rabs_Ropp in H2; lra.
  - apply Rabs_le.
Qed.

(** When the identity shortcut of [mat2quat] fires on the matrix of a unit
    quaternion, that matrix is within 1e-5 of the identity in every entry:
    the off-diagonal tolerance 1e-6 forces the vector part to be tiny, so
    the diagonal is much closer to 1 than the shortcut's own 1.1e-5. *)
Lemma allclose_identity_bound (q : Quat) :
  unit_quat q ->
  allclose3 (quat2mat q) eye3 1e-5 1e-6 = true ->
  forall i j : nat,
    Rabs (entry3 eye3 i j - entry3 (quat2mat q) i j) <= 1e-5.
Proof.
  intros U; rewrite (quat2mat_unit q U).
  destruct q as [x y z w]; unfold unit_quat in U; cbn [qx qy qz qw] in *.
  unfold allclose3, eye3; cbn [m00 m01 m02 m10 m11 m12 m20 m21 m22].
  rewrite !andb_true_iff, !close_spec, Rabs_R0, Rabs_R1.
  intros [[[[[[[[H00 H01] H02] H10] H11] H12] H20] H21] H22].
  assert (Hxw : - 5e-7 <= x * w <= 5e-7) by lra.
  assert (Hyw : - 5e-7 <= y * w <= 5e-7) by lra.
  assert (Hzw : - 5e-7 <= z * w <= 5e-7) by lra.
  assert (Hx2 : (x * w) * (x * w) <= 2.5e-13) by nra.
  assert (Hy2 : (y * w) * (y * w) <= 2.5e-13) by nra.
  assert (Hz2 : (z * w) * (z * w) <= 2.5e-13) by nra.
  assert (Hw : 0.9 <= w * w) by nra.
  assert (Hx : x * x <= 1e-6) by nra.
  assert (Hy : y * y <= 1e-6) by nra.
  assert (Hz : z * z <= 1e-6) by nra.
  intros i j.
  destruct i as [|[|[|i]]]; destruct j as [|[|[|j]]]; cbn [entry3 m00 m01 m02 m10 m11 m12 m20 m21 m22];
    apply Rabs_le; nra.
Qed.

(** C2.  For every unit quaternion [q], converting its rotation matrix to a
    quaternion and back gives a matrix whose every entry is within 1e-5 of
    the corresponding entry of [quat2mat q]. *)
Theorem quat2mat_mat2quat_round_trip (q : Quat) :
  unit_quat q ->
  forall i j : nat,
    Rabs (entry3 (quat2mat (mat2quat (quat2mat q))) i j -
          entry3 (quat2mat q) i j) <= 1e-5.
Proof.
  intros U i j; unfold mat2quat.
  destruct (allclose3 (quat2mat q) eye3 1e-5 1e-6) eqn:C.
  - rewrite qdiv_qnorm_unit by (unfold unit_quat; cbn; ring).
    rewrite quat2mat_identity.
    now apply allclose_identity_bound.
  - destruct (mat2quat_branches_unit q U) as [E | E]; rewrite E.
    + rewrite (qdiv_qnorm_unit q U).
      replace (_ - _) with 0 by ring.
      rewrite Rabs_R0; lra.
    + rewrite (qdiv_qnorm_unit _ (unit_quat_qneg q U)), quat2mat_qneg.
      replace (_ - _) with 0 by ring.
      rewrite Rabs_R0; lra.
Qed.

(** The theorem at the half-turn about the z axis, (0,0,1,0), whose matrix
    has trace -1 and goes through the last branch of [mat2quat]. *)
Lemma quat2mat_mat2quat_round_trip_half_turn :
  unit_quat (Q4 0 0 1 0) /\
  forall i j : nat,
    Rabs (entry3 (quat2mat (mat2quat (quat2mat (Q4 0 0 1 0)))) i j -
          entry3 (quat2mat (Q4 0 0 1 0)) i j) <= 1e-5.
Proof.
  assert (U : unit_quat (Q4 0 0 1 0)) by (unfold unit_quat; simpl; lra).
  split; [exact U | exact (quat2mat_mat2quat_round_trip (Q4 0 0 1 0) U)].
Defined.

(** ** Rigid inverse *)

Lemma valid_pose_eye4 : valid_pose eye4.
Proof.
  unfold valid_pose, orthonormal, det3, matmul3, transpose3, rot_block, eye4, eye3; cbn.
  repeat split; try ring; f_equal; ring.
Qed.

Lemma M4_eq (a00 a01 a02 a03 a10 a11 a12 a13 a20 a21 a22 a23 a30 a31 a32 a33
    b00 b01 b02 b03 b10 b11 b12 b13 b20 b21 b22 b23 b30 b31 b32 b33 : R) :
  a00 = b00 ->
  a01 = b01 ->
  a02 = b02 ->
  a03 = b03 ->
  a10 = b10 ->
  a11 = b11 ->
  a12 = b12 ->
  a13 = b13 ->
  a20 = b20 ->
  a21 = b21 ->
  a22 = b22 ->
  a23 = b23 ->
  a30 = b30 ->
  a31 = b31 ->
  a32 = b32 ->
  a33 = b33 ->
  M4 a00 a01 a02 a03 a10 a11 a12 a13 a20 a21 a22 a23 a30 a31 a32 a33 =
  M4 b00 b01 b02 b03 b10 b11 b12 b13 b20 b21 b22 b23 b30 b31 b32 b33.
Proof. intros; subst; reflexivity. Qed.

(** With bottom row (0,0,0,1), [pose_inv P @ P] has the block [R^T R] in
    the top-left corner, a zero translation and the bottom row of [P]. *)
Lemma pose_inv_matmul4 (P : Mat4) :
  h30 P = 0 -> h31 P = 0 -> h32 P = 0 -> h33 P = 1 ->
  matmul4 (pose_inv P) P =
  let m := matmul3 (transpose3 (rot_block P)) (rot_block P) in
  M4 (m00 m) (m01 m) (m02 m) 0
     (m10 m) (m11 m) (m12 m) 0
     (m20 m) (m21 m) (m22 m) 0
     0 0 0 1.
Proof.
  destruct P as [a b c tx d e f ty g h i tz p0 p1 p2 p3].
  cbv beta iota zeta delta [h30 h31 h32 h33]; intros -> -> -> ->.
  cbv beta iota zeta delta
    [matmul4 matmul3 pose_inv transpose3 mneg3 mulMV3 rot_block trans_col
     h00 h01 h02 h03 h10 h11 h12 h13 h20 h21 h22 h23 h30 h31 h32 h33
     m00 m01 m02 m10 m11 m12 m20 m21 m22 v0 v1 v2].
  apply M4_eq; ring.
Qed.

(** C3.  For every valid pose [P] the product [pose_inv P @ P] is the 4x4
    identity: exactly in this model, hence within every tolerance. *)
Theorem pose_inv_left_inverse (P : Mat4) :
  valid_pose P ->
  matmul4 (pose_inv P) P = eye4 /\
  forall (tol : R) (i j : nat), 0 <= tol ->
    Rabs (entry4 (matmul4 (pose_inv P) P) i j - entry4 eye4 i j) <= tol.
Proof.
  intros (Ho & _ & H30 & H31 & H32 & H33).
  assert (E : matmul4 (pose_inv P) P = eye4).
  { rewrite (pose_inv_matmul4 P H30 H31 H32 H33).
    unfold orthonormal in Ho; rewrite Ho; reflexivity. }
  split; [exact E|].
  intros tol i j Htol; rewrite E.
  replace (_ - _) with 0 by ring.
  rewrite Rabs_R0; exact Htol.
Qed.

(** The quarter turn about z translated by (1,2,3) is a valid pose. *)
Lemma valid_pose_quarter_turn : valid_pose quarter_turn_pose.
Proof.
  unfold valid_pose, quarter_turn_pose, orthonormal, det3, matmul3,
    transpose3, rot_block, eye3; simpl.
  repeat split; try lra; f_equal; lra.
Qed.

Lemma pose_inv_left_inverse_quarter_turn :
  valid_pose quarter_turn_pose /\
  matmul4 (pose_inv quarter_turn_pose) quarter_turn_pose = eye4.
Proof.
  split; [exact valid_pose_quarter_turn |].
  exact (proj1 (pose_inv_left_inverse _ valid_pose_quarter_turn)).
Defined.

(** ** Velocity transport round trip *)

Lemma sum_sq3_zero (a b c : R) :
  a * a + b * b + c * c = 0 -> a = 0 /\ b = 0 /\ c = 0.
Proof.
  intros H.
  pose proof (Rle_0_sqr a) as Ha; pose proof (Rle_0_sqr b) as Hb;
    pose proof (Rle_0_sqr c) as Hc; unfold Rsqr in *.
  repeat split; apply Rsqr_0_uniq; unfold Rsqr; lra.
Qed.

(** In a rotation matrix every column is the cross product of the two
    others, so the rows are orthonormal as well. *)
Lemma rotation_rows_orthonormal (r : Mat3) :
  orthonormal r -> det3 r = 1 -> matmul3 r (transpose3 r) = eye3.
Proof.
  destruct r as [a b c d e f g h i].
  unfold orthonormal, det3, matmul3, transpose3, eye3;
    cbn [m00 m01 m02 m10 m11 m12 m20 m21 m22].
  intros Ho Hd; injection Ho as O00 O01 O02 O10 O11 O12 O20 O21 O22.
  assert (S1 : (a - (e * i - h * f)) * (a - (e * i - h * f)) +
               (d - (h * c - b * i)) * (d - (h * c - b * i)) +
               (g - (b * f - e * c)) * (g - (b * f - e * c)) = 0).
  { transitivity ((a * a + d * d + g * g)
                  - 2 * (a * (e * i - f * h) - b * (d * i - f * g) + c * (d * h - e * g))
                  + ((b * b + e * e + h * h) * (c * c + f * f + i * i)
                     - (b * c + e * f + h * i) * (b * c + e * f + h * i))); [ring|].
    rewrite O00, Hd, O11, O22, O12; ring. }
  assert (S2 : (b - (f * g - i * d)) * (b - (f * g - i * d)) +
               (e - (i * a - c * g)) * (e - (i * a - c * g)) +
               (h - (c * d - f * a)) * (h - (c * d - f * a)) = 0).
  { transitivity ((b * b + e * e + h * h)
                  - 2 * (a * (e * i - f * h) - b * (d * i - f * g) + c * (d * h - e * g))
                  + ((c * c + f * f + i * i) * (a * a + d * d + g * g)
                     - (a * c + d * f + g * i) * (a * c + d * f + g * i))); [ring|].
    rewrite O00, Hd, O11, O22, O02; ring. }
  assert (S3 : (c - (d * h - g * e)) * (c - (d * h - g * e)) +
               (f - (g * b - a * h)) * (f - (g * b - a * h)) +
               (i - (a * e - d * b)) * (i - (a * e - d * b)) = 0).
  { transitivity ((c * c + f * f + i * i)
                  - 2 * (a * (e * i - f * h) - b * (d * i - f * g) + c * (d * h - e * g))
                  + ((a * a + d * d + g * g) * (b * b + e * e + h * h)
                     - (a * b + d * e + g * h) * (a * b + d * e + g * h))); [ring|].
    rewrite O00, Hd, O11, O22, O01; ring. }
  apply sum_sq3_zero in S1; destruct S1 as (Ca & Cd & Cg).
  apply sum_sq3_zero in S2; destruct S2 as (Cb & Ce & Ch).
  apply sum_sq3_zero in S3; destruct S3 as (Cc & Cf & Ci).
  apply Rminus_diag_uniq in Ca, Cd, Cg, Cb, Ce, Ch, Cc, Cf, Ci.
  f_equal.
  - rewrite Ca at 1; rewrite Cb at 1; rewrite Cc at 1; lra.
  - rewrite Cd at 1; rewrite Ce at 1; rewrite Cf at 1; ring.
  - rewrite Cg at 1; rewrite Ch at 1; rewrite Ci at 1; ring.
  - rewrite Ca at 1; rewrite Cb at 1; rewrite Cc at 1; ring.
  - rewrite Cd at 1; rewrite Ce at 1; rewrite Cf at 1; lra.
  - rewrite Cg at 1; rewrite Ch at 1; rewrite Ci at 1; ring.
  - rewrite Ca at 1; rewrite Cb at 1; rewrite Cc at 1; ring.
  - rewrite Cd at 1; rewrite Ce at 1; rewrite Cf at 1; ring.
  - rewrite Cg at 1; rewrite Ch at 1; rewrite Ci at 1; lra.
Qed.



(** ** Endpoint policy of spherical interpolation *)

(** C5, as stated, fails: the end quaternion is returned after the
    shortest-path negation.  From (0,0,0,1) to its antipode (0,0,0,-1) at
    [frac = 1], with the default arguments, the result is not the antipode. *)
Lemma quat_slerp_end_not_q1 :
  unit_quat (Q4 0 0 0 1) /\ unit_quat (Q4 0 0 0 (-1)) /\ 1 <= 1 /\
  quat_slerp (Q4 0 0 0 1) (Q4 0 0 0 (-1)) 1 true 1e-15 <> Q4 0 0 0 (-1).
Proof.
  repeat split; try (unfold unit_quat; simpl; lra).
  assert (S : sqrt 1 = 1) by apply sqrt_1.
  assert (U0 : unit_vector (Q4 0 0 0 1) = Q4 0 0 0 (1 / (1 + 1e-8))).
  { unfold unit_vector, dot4, qdiv; cbn [qx qy qz qw].
    replace (0 * 0 + 0 * 0 + 0 * 0 + 1 * 1) with 1 by ring.
    rewrite S; f_equal; field; lra. }
  assert (U1 : unit_vector (Q4 0 0 0 (-1)) = Q4 0 0 0 (- (1 / (1 + 1e-8)))).
  { unfold unit_vector, dot4, qdiv; cbn [qx qy qz qw].
    replace (0 * 0 + 0 * 0 + 0 * 0 + -1 * -1) with 1 by ring.
    rewrite S; f_equal; field; lra. }
  assert (Hpos : 0 < 1 / (1 + 1e-8)).
  { apply Rdiv_lt_0_compat; lra. }
  assert (Q1 : slerp_quat1 (Q4 0 0 0 1) (Q4 0 0 0 (-1)) true =
               Q4 0 0 0 (1 / (1 + 1e-8))).
  { unfold slerp_quat1, slerp_d; rewrite U0, U1.
    unfold dot4, qneg; cbn [qx qy qz qw].
    destruct (ltR _ 0) eqn:E.
    - f_equal; ring.
    - apply ltR_false in E; nra. }
  unfold quat_slerp; rewrite Q1, U0.
  destruct (_ || _ || _); [|destruct (leR 1 1) eqn:E].
  - intros H; injection H as H; lra.
  - intros H; injection H as H; lra.
  - apply leR_false in E; lra.
Qed.

(** C5, amended.  [quat_slerp] returns the normalised start quaternion
    [unit_vector quat0] whenever [frac <= 0], or the magnitude of the dot
    product is within [eps] of 1, or the angle is within [eps]; when none of
    these holds and [frac >= 1] it returns the normalised end quaternion,
    negated if [shortestpath] is set and the dot product is negative. *)
Theorem quat_slerp_endpoint_policy
    (quat0 quat1 : Quat) (frac : R) (shortestpath : bool) (eps : R) :
  (frac <= 0 \/
   Rabs (Rabs (slerp_d' quat0 quat1 shortestpath) - 1) < eps \/
   Rabs (slerp_angle quat0 quat1 shortestpath) < eps ->
   quat_slerp quat0 quat1 frac shortestpath eps = unit_vector quat0) /\
  (1 <= frac ->
   ~ Rabs (Rabs (slerp_d' quat0 quat1 shortestpath) - 1) < eps ->
   ~ Rabs (slerp_angle quat0 quat1 shortestpath) < eps ->
   quat_slerp quat0 quat1 frac shortestpath eps =
   slerp_quat1 quat0 quat1 shortestpath).
Proof.
  unfold quat_slerp; split.
  - intros H.
    destruct (ltR (Rabs (Rabs _ - 1)) eps) eqn:E1; [reflexivity|].
    destruct (ltR (Rabs (slerp_angle _ _ _)) eps) eqn:E2; [reflexivity|].
    destruct (leR frac 0) eqn:E3; [reflexivity|].
    apply ltR_false in E1; apply ltR_false in E2; apply leR_false in E3.
    destruct H as [H | [H | H]]; lra.
  - intros Hf H1 H2.
    destruct (ltR (Rabs (Rabs _ - 1)) eps) eqn:E1;
      [apply ltR_true in E1; contradiction|].
    destruct (ltR (Rabs (slerp_angle _ _ _)) eps) eqn:E2;
      [apply ltR_true in E2; contradiction|].
    destruct (leR frac 0) eqn:E3; [apply leR_true in E3; lra|].
    destruct (leR 1 frac) eqn:E4; [reflexivity|].
    apply leR_false in E4; lra.
Qed.

(** The policy at [frac = 0] between the identity and the half turn about
    x: the normalised identity quaternion is returned. *)
Lemma quat_slerp_endpoint_policy_start :
  0 <= 0 /\
  quat_slerp (Q4 0 0 0 1) (Q4 1 0 0 0) 0 true 1e-15 =
  unit_vector (Q4 0 0 0 1).
Proof.
  split; [lra|].
  apply (proj1 (quat_slerp_endpoint_policy
                  (Q4 0 0 0 1) (Q4 1 0 0 0) 0 true 1e-15)).
  left; lra.
Defined.

(** ** Range of the Euler angles *)



(** ** Degenerate frusta are rejected *)

Lemma frustum_None (l r b t n f : R) :
  frustum l r b t n f = None <-> degenerate l r b t n f.
Proof.
  unfold frustum, degenerate.
  destruct (eqR r l) eqn:E1; [apply eqR_true in E1; intuition|].
  destruct (eqR b t) eqn:E2; [apply eqR_true in E2; intuition|].
  destruct (eqR n f) eqn:E3; [apply eqR_true in E3; intuition|].
  apply eqR_false in E1; apply eqR_false in E2; apply eqR_false in E3.
  split; [discriminate|].
  intros [H | [H | H]]; [symmetry in H|..]; contradiction.
Qed.

Lemma ortho_None (l r b t n f : R) :
  ortho l r b t n f = None <-> degenerate l r b t n f.
Proof.
  unfold ortho, degenerate.
  destruct (eqR r l) eqn:E1; [apply eqR_true in E1; intuition|].
  destruct (eqR b t) eqn:E2; [apply eqR_true in E2; intuition|].
  destruct (eqR n f) eqn:E3; [apply eqR_true in E3; intuition|].
  apply eqR_false in E1; apply eqR_false in E2; apply eqR_false in E3.
  split; [discriminate|].
  intros [H | [H | H]]; [symmetry in H|..]; contradiction.
Qed.

Lemma perspective_None (fovy aspect n f : R) :
  perspective fovy aspect n f = None <->
  degenerate (- perspective_w fovy aspect n) (perspective_w fovy aspect n)
             (- perspective_h fovy n) (perspective_h fovy n) n f.
Proof.
  unfold perspective.
  destruct (eqR n f) eqn:E.
  - apply eqR_true in E; unfold degenerate; intuition.
  - apply frustum_None.
Qed.

Lemma not_None_Some {A : Type} (o : option A) : o <> None -> exists a, o = Some a.
Proof. destruct o as [a|]; [now exists a | congruence]. Qed.

(** C7.  [frustum], [ortho] and [perspective] fail exactly when two opposite
    clip planes coincide (left = right, bottom = top or znear = zfar; for
    [perspective] the side planes are the derived -w, w, -h, h), so no
    matrix is produced for degenerate input, and they return a matrix for
    every other input. *)
Theorem degenerate_frustum_rejected :
  (forall l r b t n f : R,
      (degenerate l r b t n f -> frustum l r b t n f = None) /\
      (~ degenerate l r b t n f -> exists M, frustum l r b t n f = Some M)) /\
  (forall l r b t n f : R,
      (degenerate l r b t n f -> ortho l r b t n f = None) /\
      (~ degenerate l r b t n f -> exists M, ortho l r b t n f = Some M)) /\
  (forall fovy aspect n f : R,
      let w := perspective_w fovy aspect n in
      let h := perspective_h fovy n in
      (degenerate (- w) w (- h) h n f -> perspective fovy aspect n f = None) /\
      (~ degenerate (- w) w (- h) h n f ->
       exists M, perspective fovy aspect n f = Some M)).
Proof.
  repeat split.
  - apply frustum_None.
  - intros H; apply not_None_Some; now rewrite frustum_None.
  - apply ortho_None.
  - intros H; apply not_None_Some; now rewrite ortho_None.
  - apply perspective_None.
  - intros H; apply not_None_Some; now rewrite perspective_None.
Qed.

Lemma degenerate_frustum_rejected_samples :
  frustum 0 0 (-1) 1 1 10 = None /\
  (exists M, ortho (-1) 1 (-1) 1 1 10 = Some M).
Proof.
  destruct degenerate_frustum_rejected as (F & O & _).
  split.
  - apply (proj1 (F 0 0 (-1) 1 1 10)); left; reflexivity.
  - apply (proj2 (O (-1) 1 (-1) 1 1 10)).
    unfold degenerate; lra.
Defined.

(** ** Exponential moving average *)














(** ** Right-angle classification *)

Lemma sqrt2_bounds : 1.4142 < sqrt 2 < 1.4143.
Proof.
  split.
  - rewrite <- (sqrt_square 1.4142) by lra.
    apply sqrt_lt_1; lra.
  - rewrite <- (sqrt_square 1.4143) at 1 by lra.
    apply sqrt_lt_1; lra.
Qed.

Lemma check_quat_right_angle_spec (quat : Quat) (atol : R) :
  check_quat_right_angle quat atol = true <->
  Rabs (l1_norm quat - 1.0) < atol \/
  Rabs (l1_norm quat - 1.414) < atol \/
  Rabs (l1_norm quat - 2.0) < atol.
Proof.
  unfold check_quat_right_angle, reference_norms; cbn [existsb].
  rewrite !orb_true_iff, !ltR_true; intuition discriminate.
Qed.

(** C9, as stated, fails: the middle reference value of the code is 1.414,
    not sqrt 2.  The quarter-turn quaternion (sqrt 2 / 2, sqrt 2 / 2, 0, 0)
    has L1 norm exactly sqrt 2 and is rejected at [atol = 1e-4]. *)
Lemma check_quat_right_angle_sqrt2_rejected :
  ~ (check_quat_right_angle (Q4 (sqrt 2 / 2) (sqrt 2 / 2) 0 0) 1e-4 = true <->
     Rabs (l1_norm (Q4 (sqrt 2 / 2) (sqrt 2 / 2) 0 0) - 1) < 1e-4 \/
     Rabs (l1_norm (Q4 (sqrt 2 / 2) (sqrt 2 / 2) 0 0) - sqrt 2) < 1e-4 \/
     Rabs (l1_norm (Q4 (sqrt 2 / 2) (sqrt 2 / 2) 0 0) - 2) < 1e-4).
Proof.
  pose proof sqrt2_bounds as [Lo Hi].
  assert (L : l1_norm (Q4 (sqrt 2 / 2) (sqrt 2 / 2) 0 0) = sqrt 2).
  { unfold l1_norm; cbn [qx qy qz qw].
    rewrite Rabs_R0, (Rabs_pos_eq (sqrt 2 / 2)) by lra; lra. }
  rewrite check_quat_right_angle_spec, L.
  intros [_ H].
  assert (G : Rabs (sqrt 2 - 1) < 1e-4 \/ Rabs (sqrt 2 - sqrt 2) < 1e-4 \/
              Rabs (sqrt 2 - 2) < 1e-4).
  { right; left. replace (sqrt 2 - sqrt 2) with 0 by ring.
    rewrite Rabs_R0; lra. }
  specialize (H G).
  destruct H as [H | [H | H]]; apply Rabs_def2 in H; lra.
Qed.

(** C9, amended.  [check_quat_right_angle q atol] is true if and only if
    the L1 norm of [q] is strictly within [atol] of one of the three
    reference values 1.0, 1.414 and 2.0. *)
Theorem check_quat_right_angle_iff (quat : Quat) (atol : R) :
  check_quat_right_angle quat atol = true <->
  exists r : R, In r [1; 1.414; 2] /\ Rabs (l1_norm quat - r) < atol.
Proof.
  rewrite check_quat_right_angle_spec; split.
  - intros [H | [H | H]].
    + exists 1; split; [simpl; auto | now replace 1 with 1.0 by lra].
    + exists 1.414; split; [simpl; auto | exact H].
    + exists 2; split; [simpl; auto | now replace 2 with 2.0 by lra].
  - intros (r & Hin & H); simpl in Hin.
    destruct Hin as [<- | [<- | [<- | []]]].
    + left; now replace 1.0 with 1 by lra.
    + right; left; exact H.
    + right; right; now replace 2.0 with 2 by lra.
Qed.

(** ** Orientation error *)

(** The eight-multiplication product is the Hamilton product. *)
Lemma quat_mul_quat_multiply (a b : Quat) : quat_mul a b = quat_multiply a b.
Proof.
  destruct a as [x1 y1 z1 w1], b as [x2 y2 z2 w2].
  unfold quat_mul, quat_multiply; cbn [qx qy qz qw].
  f_equal; lra.
Qed.




(** ** Quaternion algebra *)

(** X1.  [quat_mul] computes the Hamilton product of [quat_multiply]. *)
Theorem quat_mul_is_hamilton_product (a b : Quat) :
  quat_mul a b = quat_multiply a b.
Proof. apply quat_mul_quat_multiply. Qed.







(** X5.  The Hamilton product multiplies squared norms and is associative;
    in particular a product of unit quaternions is a unit quaternion. *)
Theorem quat_multiply_norm_assoc (q2 q1 q0 : Quat) :
  dot4 (quat_multiply q1 q0) (quat_multiply q1 q0) =
  dot4 q1 q1 * dot4 q0 q0 /\
  quat_multiply (quat_multiply q2 q1) q0 =
  quat_multiply q2 (quat_multiply q1 q0) /\
  (unit_quat q1 -> unit_quat q0 -> unit_quat (quat_multiply q1 q0)).
Proof.
  destruct q2 as [x2 y2 z2 w2], q1 as [x1 y1 z1 w1], q0 as [x0 y0 z0 w0].
  unfold quat_multiply, dot4, unit_quat; cbn [qx qy qz qw].
  split; [ring | split; [f_equal; ring |]].
  intros U1 U0.
  transitivity ((x1 * x1 + y1 * y1 + z1 * z1 + w1 * w1) *
                (x0 * x0 + y0 * y0 + z0 * z0 + w0 * w0)); [ring|].
  rewrite U1, U0; ring.
Qed.

(** X6.  Converting to (w,x,y,z) and back to (x,y,z,w) is the identity, in
    both orders, and every other target is rejected. *)
Theorem convert_quat_round_trip (q : R * R * R * R) :
  (exists q', convert_quat q "wxyz" = Some q' /\
              convert_quat q' "xyzw" = Some q) /\
  (exists q', convert_quat q "xyzw" = Some q' /\
              convert_quat q' "wxyz" = Some q) /\
  (forall to : String.string,
      to <> "xyzw"%string -> to <> "wxyz"%string -> convert_quat q to = None).
Proof.
  destruct q as [[[a b] c] d]; repeat split.
  - eexists; split; reflexivity.
  - eexists; split; reflexivity.
  - intros to H1 H2; unfold convert_quat.
    apply String.eqb_neq in H1, H2; now rewrite H1, H2.
Qed.

(** ** Rotation matrices of quaternions *)

Lemma M3_eq (a00 a01 a02 a10 a11 a12 a20 a21 a22
    b00 b01 b02 b10 b11 b12 b20 b21 b22 : R) :
  a00 = b00 -> a01 = b01 -> a02 = b02 ->
  a10 = b10 -> a11 = b11 -> a12 = b12 ->
  a20 = b20 -> a21 = b21 -> a22 = b22 ->
  M3 a00 a01 a02 a10 a11 a12 a20 a21 a22 =
  M3 b00 b01 b02 b10 b11 b12 b20 b21 b22.
Proof. intros; subst; reflexivity. Qed.

(** For a non-zero quaternion the scale factor squared is [2 / n]. *)
Lemma quat2mat_nonzero (q : Quat) :
  dot4 q q <> 0 ->
  quat2mat q =
  let n := dot4 q q in
  M3 (1 - 2 * (qy q * qy q + qz q * qz q) / n)
     (2 * (qx q * qy q - qz q * qw q) / n)
     (2 * (qx q * qz q + qy q * qw q) / n)
     (2 * (qx q * qy q + qz q * qw q) / n)
     (1 - 2 * (qx q * qx q + qz q * qz q) / n)
     (2 * (qy q * qz q - qx q * qw q) / n)
     (2 * (qx q * qz q - qy q * qw q) / n)
     (2 * (qy q * qz q + qx q * qw q) / n)
     (1 - 2 * (qx q * qx q + qy q * qy q) / n).
Proof.
  destruct q as [x y z w]; unfold dot4, quat2mat; cbn [qx qy qz qw].
  intros Hn.
  replace (w * w + x * x + y * y + z * z)
    with (x * x + y * y + z * z + w * w) by ring.
  set (n := x * x + y * y + z * z + w * w) in *.
  destruct (eqR n 0) eqn:E; [apply eqR_true in E; contradiction|].
  assert (Hpos : 0 < n).
  { assert (0 <= n) by (unfold n; nra). lra. }
  assert (Hs : sqrt (2 / n) * sqrt (2 / n) = 2 / n).
  { apply sqrt_sqrt. apply Rlt_le, Rdiv_lt_0_compat; lra. }
  set (s := sqrt (2 / n)) in *.
  apply M3_eq.
  - transitivity (1 - y * y * (s * s) - z * z * (s * s)); [ring|].
    rewrite Hs; field; lra.
  - transitivity (x * y * (s * s) - z * w * (s * s)); [ring|].
    rewrite Hs; field; lra.
  - transitivity (x * z * (s * s) + y * w * (s * s)); [ring|].
    rewrite Hs; field; lra.
  - transitivity (x * y * (s * s) + z * w * (s * s)); [ring|].
    rewrite Hs; field; lra.
  - transitivity (1 - x * x * (s * s) - z * z * (s * s)); [ring|].
    rewrite Hs; field; lra.
  - transitivity (y * z * (s * s) - x * w * (s * s)); [ring|].
    rewrite Hs; field; lra.
  - transitivity (x * z * (s * s) - y * w * (s * s)); [ring|].
    rewrite Hs; field; lra.
  - transitivity (y * z * (s * s) + x * w * (s * s)); [ring|].
    rewrite Hs; field; lra.
  - transitivity (1 - x * x * (s * s) - y * y * (s * s)); [ring|].
    rewrite Hs; field; lra.
Qed.

Lemma quat2mat_zero (q : Quat) : dot4 q q = 0 -> quat2mat q = eye3.
Proof.
  destruct q as [x y z w]; unfold dot4, quat2mat; cbn [qx qy qz qw].
  intros Hn.
  replace (w * w + x * x + y * y + z * z) with 0 by lra.
  destruct (eqR 0 0) eqn:E; [reflexivity | apply eqR_false in E; lra].
Qed.

Lemma quat2mat_is_rotation (q : Quat) :
  orthonormal (quat2mat q) /\ det3 (quat2mat q) = 1.
Proof.
  destruct (Req_dec_T (dot4 q q) 0) as [Z | NZ].
  - rewrite (quat2mat_zero q Z).
    unfold orthonormal, det3, matmul3, transpose3, eye3;
      cbn [m00 m01 m02 m10 m11 m12 m20 m21 m22].
    split; [apply M3_eq; ring | ring].
  - rewrite (quat2mat_nonzero q NZ).
    destruct q as [x y z w]; unfold dot4 in *; cbn [qx qy qz qw] in *.
    cbv zeta.
    unfold orthonormal, det3, matmul3, transpose3, eye3;
      cbn [m00 m01 m02 m10 m11 m12 m20 m21 m22].
    split; [apply M3_eq; field; exact NZ | field; exact NZ].
Qed.

(** X7.  [quat2mat] returns a rotation matrix (orthonormal columns,
    determinant +1) for every quaternion, unit or not; the zero quaternion
    gives the identity. *)
Theorem quat2mat_rotation (q : Quat) :
  orthonormal (quat2mat q) /\ det3 (quat2mat q) = 1 /\
  (dot4 q q = 0 -> quat2mat q = eye3).
Proof.
  destruct (quat2mat_is_rotation q) as [Ho Hd].
  repeat split; [exact Ho | exact Hd | apply quat2mat_zero].
Qed.



(** ** Rigid poses *)

Lemma pose2mat_valid_aux (pos : Vec3) (orn : Quat) :
  valid_pose (pose2mat (pos, orn)) /\
  trans_col (pose2mat (pos, orn)) = pos /\
  rot_block (pose2mat (pos, orn)) = quat2mat orn.
Proof.
  destruct (quat2mat_is_rotation orn) as [Ho Hd].
  assert (Er : rot_block (pose2mat (pos, orn)) = quat2mat orn).
  { unfold pose2mat, rot_block; cbn.
    destruct (quat2mat orn); reflexivity. }
  split; [|split; [destruct pos; reflexivity | exact Er]].
  unfold valid_pose; rewrite Er.
  repeat split; [exact Ho | exact Hd].
Qed.

(** X9.  [pose2mat] builds a valid pose from every position and every
    quaternion: rotation block orthonormal with determinant +1, bottom row
    (0,0,0,1), translation column equal to the position. *)
Theorem pose2mat_valid (pos : Vec3) (orn : Quat) :
  valid_pose (pose2mat (pos, orn)) /\
  trans_col (pose2mat (pos, orn)) = pos /\
  rot_block (pose2mat (pos, orn)) = quat2mat orn.
Proof. apply pose2mat_valid_aux. Qed.

Lemma matmul4_pose_inv_r (P : Mat4) :
  h30 P = 0 -> h31 P = 0 -> h32 P = 0 -> h33 P = 1 ->
  matmul4 P (pose_inv P) =
  let m := matmul3 (rot_block P) (transpose3 (rot_block P)) in
  let u := mulMV3 m (trans_col P) in
  M4 (m00 m) (m01 m) (m02 m) (h03 P - v0 u)
     (m10 m) (m11 m) (m12 m) (h13 P - v1 u)
     (m20 m) (m21 m) (m22 m) (h23 P - v2 u)
     0 0 0 1.
Proof.
  destruct P as [a b c tx d e f ty g h i tz p0 p1 p2 p3].
  cbv beta iota zeta delta [h30 h31 h32 h33]; intros -> -> -> ->.
  cbv beta iota zeta delta
    [matmul4 matmul3 pose_inv transpose3 mneg3 mulMV3 rot_block trans_col
     h00 h01 h02 h03 h10 h11 h12 h13 h20 h21 h22 h23 h30 h31 h32 h33
     m00 m01 m02 m10 m11 m12 m20 m21 m22 v0 v1 v2].
  apply M4_eq; ring.
Qed.

Lemma pose_inv_pose_inv (P : Mat4) :
  h30 P = 0 -> h31 P = 0 -> h32 P = 0 -> h33 P = 1 ->
  pose_inv (pose_inv P) =
  let m := matmul3 (rot_block P) (transpose3 (rot_block P)) in
  let u := mulMV3 m (trans_col P) in
  M4 (h00 P) (h01 P) (h02 P) (v0 u)
     (h10 P) (h11 P) (h12 P) (v1 u)
     (h20 P) (h21 P) (h22 P) (v2 u)
     0 0 0 1.
Proof.
  destruct P as [a b c tx d e f ty g h i tz p0 p1 p2 p3].
  cbv beta iota zeta delta [h30 h31 h32 h33]; intros -> -> -> ->.
  cbv beta iota zeta delta
    [matmul4 matmul3 pose_inv transpose3 mneg3 mulMV3 rot_block trans_col
     h00 h01 h02 h03 h10 h11 h12 h13 h20 h21 h22 h23 h30 h31 h32 h33
     m00 m01 m02 m10 m11 m12 m20 m21 m22 v0 v1 v2].
  apply M4_eq; ring.
Qed.

Lemma det3_transpose3 (r : Mat3) : det3 (transpose3 r) = det3 r.
Proof.
  destruct r as [a00 a01 a02 a10 a11 a12 a20 a21 a22]; unfold det3, transpose3;
    cbn [m00 m01 m02 m10 m11 m12 m20 m21 m22]; ring.
Qed.

Lemma transpose3_involutive (r : Mat3) : transpose3 (transpose3 r) = r.
Proof. destruct r; reflexivity. Qed.

Lemma rot_block_pose_inv (P : Mat4) :
  rot_block (pose_inv P) = transpose3 (rot_block P).
Proof. destruct P; reflexivity. Qed.

Lemma pose_inv_valid_aux (P : Mat4) :
  valid_pose P ->
  valid_pose (pose_inv P) /\
  matmul4 P (pose_inv P) = eye4 /\
  pose_inv (pose_inv P) = P.
Proof.
  intros (Ho & Hd & H30 & H31 & H32 & H33).
  pose proof (rotation_rows_orthonormal _ Ho Hd) as Hr.
  split; [|split].
  - unfold valid_pose; rewrite rot_block_pose_inv.
    repeat split; try reflexivity.
    + unfold orthonormal; rewrite transpose3_involutive; exact Hr.
    + rewrite det3_transpose3; exact Hd.
  - rewrite (matmul4_pose_inv_r P H30 H31 H32 H33), Hr.
    destruct P as [a b c tx d e f ty g h i tz p0 p1 p2 p3].
    cbv beta iota zeta delta
      [eye3 eye4 mulMV3 trans_col h03 h13 h23
       m00 m01 m02 m10 m11 m12 m20 m21 m22 v0 v1 v2].
    apply M4_eq; ring.
  - rewrite (pose_inv_pose_inv P H30 H31 H32 H33), Hr.
    destruct P as [a b c tx d e f ty g h i tz p0 p1 p2 p3].
    cbn [h30 h31 h32 h33] in *; subst p0 p1 p2 p3.
    cbv beta iota zeta delta
      [eye3 mulMV3 trans_col h00 h01 h02 h03 h10 h11 h12 h13 h20 h21 h22 h23
       m00 m01 m02 m10 m11 m12 m20 m21 m22 v0 v1 v2].
    apply M4_eq; ring.
Qed.

(** X10.  For a valid pose, [pose_inv] is a two-sided inverse, is again a
    valid pose, and is an involution. *)
Theorem pose_inv_valid_pose (P : Mat4) :
  valid_pose P ->
  valid_pose (pose_inv P) /\
  matmul4 P (pose_inv P) = eye4 /\
  pose_inv (pose_inv P) = P.
Proof. apply pose_inv_valid_aux. Qed.

Lemma pose_inv_valid_pose_quarter_turn :
  valid_pose quarter_turn_pose /\
  pose_inv (pose_inv quarter_turn_pose) = quarter_turn_pose.
Proof.
  split; [exact valid_pose_quarter_turn |].
  exact (proj2 (proj2 (pose_inv_valid_pose _ valid_pose_quarter_turn))).
Defined.







Lemma matmul4_assoc (A B C : Mat4) :
  matmul4 A (matmul4 B C) = matmul4 (matmul4 A B) C.
Proof.
  destruct A as [a00 a01 a02 a03 a10 a11 a12 a13 a20 a21 a22 a23 a30 a31 a32 a33],
    B as [b00 b01 b02 b03 b10 b11 b12 b13 b20 b21 b22 b23 b30 b31 b32 b33],
    C as [c00 c01 c02 c03 c10 c11 c12 c13 c20 c21 c22 c23 c30 c31 c32 c33].
  cbv beta iota zeta delta
    [matmul4 h00 h01 h02 h03 h10 h11 h12 h13 h20 h21 h22 h23
     h30 h31 h32 h33].
  apply M4_eq; ring.
Qed.

Lemma matmul4_eye4_l (A : Mat4) : matmul4 eye4 A = A.
Proof.
  destruct A as [a00 a01 a02 a03 a10 a11 a12 a13 a20 a21 a22 a23 a30 a31 a32 a33].
  cbv beta iota zeta delta
    [matmul4 eye4 h00 h01 h02 h03 h10 h11 h12 h13 h20 h21 h22 h23
     h30 h31 h32 h33].
  apply M4_eq; ring.
Qed.

(** X12.  [relative_pose_transform] reads back a matrix [T] that solves
    [pose2mat pose0 @ T = pose2mat pose1], as its docstring states, for
    every pair of poses. *)
Theorem relative_pose_transform_solves
    (pos1 : Vec3) (quat1 : Quat) (pos0 : Vec3) (quat0 : Quat) :
  exists T : Mat4,
    relative_pose_transform pos1 quat1 pos0 quat0 = mat2pose T /\
    matmul4 (pose2mat (pos0, quat0)) T = pose2mat (pos1, quat1).
Proof.
  exists (matmul4 (pose_inv (pose2mat (pos0, quat0))) (pose2mat (pos1, quat1))).
  split; [reflexivity|].
  destruct (pose2mat_valid_aux pos0 quat0) as [V _].
  destruct (pose_inv_valid_aux _ V) as (_ & E & _).
  now rewrite matmul4_assoc, E, matmul4_eye4_l.
Qed.

(** X13.  [invert_pose_transform] reads back the matrix inverse of the pose:
    multiplying it with [pose2mat] of the pose gives the identity on both
    sides, and the inverted position is [-(R^T pos)]. *)
Theorem invert_pose_transform_inverse (pos : Vec3) (quat : Quat) :
  exists T : Mat4,
    invert_pose_transform pos quat = mat2pose T /\
    matmul4 T (pose2mat (pos, quat)) = eye4 /\
    matmul4 (pose2mat (pos, quat)) T = eye4 /\
    fst (invert_pose_transform pos quat) =
    vneg (mulMV3 (transpose3 (quat2mat quat)) pos).
Proof.
  exists (pose_inv (pose2mat (pos, quat))).
  destruct (pose2mat_valid_aux pos quat) as [V _].
  split; [reflexivity|].
  split.
  { destruct V as (Ho & _ & H30 & H31 & H32 & H33).
    rewrite (pose_inv_matmul4 _ H30 H31 H32 H33).
    unfold orthonormal in Ho; rewrite Ho; reflexivity. }
  split; [exact (proj1 (proj2 (pose_inv_valid_aux _ V)))|].
  unfold invert_pose_transform, mat2pose, pose2mat.
  destruct (quat2mat quat) as [a b c d e f g h i], pos as [x y z].
  cbv beta iota zeta delta
    [fst pose_inv trans_col rot_block transpose3 mneg3 mulMV3 vneg
     h00 h01 h02 h03 h10 h11 h12 h13 h20 h21 h22 h23 h30 h31 h32 h33
     m00 m01 m02 m10 m11 m12 m20 m21 m22 v0 v1 v2].
  f_equal; ring.
Qed.

(** ** Velocity and force transport *)



Lemma rotation_cofactor (r : Mat3) :
  orthonormal r -> det3 r = 1 -> cofactor3 r = r.
Proof.
  destruct r as [a b c d e f g h i].
  unfold orthonormal, det3, matmul3, transpose3, eye3, cofactor3;
    cbn [m00 m01 m02 m10 m11 m12 m20 m21 m22].
  intros Ho Hd; injection Ho as O00 O01 O02 O10 O11 O12 O20 O21 O22.
  assert (S1 : (e * i - f * h - a) * (e * i - f * h - a) +
               (c * h - b * i - d) * (c * h - b * i - d) +
               (b * f - c * e - g) * (b * f - c * e - g) = 0).
  { transitivity ((a * a + d * d + g * g)
                  - 2 * (a * (e * i - f * h) - b * (d * i - f * g) + c * (d * h - e * g))
                  + ((b * b + e * e + h * h) * (c * c + f * f + i * i)
                     - (b * c + e * f + h * i) * (b * c + e * f + h * i))); [ring|].
    rewrite O00, Hd, O11, O22, O12; ring. }
  assert (S2 : (f * g - d * i - b) * (f * g - d * i - b) +
               (a * i - c * g - e) * (a * i - c * g - e) +
               (c * d - a * f - h) * (c * d - a * f - h) = 0).
  { transitivity ((b * b + e * e + h * h)
                  - 2 * (a * (e * i - f * h) - b * (d * i - f * g) + c * (d * h - e * g))
                  + ((c * c + f * f + i * i) * (a * a + d * d + g * g)
                     - (a * c + d * f + g * i) * (a * c + d * f + g * i))); [ring|].
    rewrite O00, Hd, O11, O22, O02; ring. }
  assert (S3 : (d * h - e * g - c) * (d * h - e * g - c) +
               (b * g - a * h - f) * (b * g - a * h - f) +
               (a * e - b * d - i) * (a * e - b * d - i) = 0).
  { transitivity ((c * c + f * f + i * i)
                  - 2 * (a * (e * i - f * h) - b * (d * i - f * g) + c * (d * h - e * g))
                  + ((a * a + d * d + g * g) * (b * b + e * e + h * h)
                     - (a * b + d * e + g * h) * (a * b + d * e + g * h))); [ring|].
    rewrite O00, Hd, O11, O22, O01; ring. }
  apply sum_sq3_zero in S1; destruct S1 as (Ca & Cd & Cg).
  apply sum_sq3_zero in S2; destruct S2 as (Cb & Ce & Ch).
  apply sum_sq3_zero in S3; destruct S3 as (Cc & Cf & Ci).
  apply Rminus_diag_uniq in Ca, Cd, Cg, Cb, Ce, Ch, Cc, Cf, Ci.
  apply M3_eq; lra.
Qed.

Lemma cross_mulMV3_cofactor (m : Mat3) (a b : Vec3) :
  cross (mulMV3 m a) (mulMV3 m b) = mulMV3 (cofactor3 m) (cross a b).
Proof.
  destruct m as [m0 m1 m2 m3 m4 m5 m6 m7 m8], a as [a0 a1 a2], b as [b0 b1 b2].
  unfold cross, mulMV3, cofactor3;
    cbn [m00 m01 m02 m10 m11 m12 m20 m21 m22 v0 v1 v2].
  f_equal; ring.
Qed.

Lemma rotation_cross_aux (r : Mat3) (a b : Vec3) :
  orthonormal r -> det3 r = 1 ->
  cross (mulMV3 r a) (mulMV3 r b) = mulMV3 r (cross a b).
Proof.
  intros Ho Hd; rewrite cross_mulMV3_cofactor.
  now rewrite (rotation_cofactor r Ho Hd).
Qed.

(** a rotation matrix (orthonormal, determinant +1) commutes with the
    cross product: [R a x R b = R (a x b)]; so does every [quat2mat q]. *)
Theorem rotation_preserves_cross (r : Mat3) (a b : Vec3) :
  orthonormal r -> det3 r = 1 ->
  cross (mulMV3 r a) (mulMV3 r b) = mulMV3 r (cross a b).
Proof. apply rotation_cross_aux. Qed.

Lemma rotation_preserves_cross_quat2mat :
  orthonormal (quat2mat (Q4 0 0 1 0)) /\ det3 (quat2mat (Q4 0 0 1 0)) = 1 /\
  cross (mulMV3 (quat2mat (Q4 0 0 1 0)) (V3 1 0 0))
        (mulMV3 (quat2mat (Q4 0 0 1 0)) (V3 0 1 0)) =
  mulMV3 (quat2mat (Q4 0 0 1 0)) (cross (V3 1 0 0) (V3 0 1 0)).
Proof.
  destruct (quat2mat_is_rotation (Q4 0 0 1 0)) as [Ho Hd].
  repeat split; [exact Ho | exact Hd |].
  exact (rotation_preserves_cross _ (V3 1 0 0) (V3 0 1 0) Ho Hd).
Defined.












(** ** Rotations applied to vectors, Euler angles, axis-angle *)

(** X17.  For a unit quaternion, [quat_apply] is multiplication by the
    rotation matrix of [quat2mat]. *)
Theorem quat_apply_quat2mat (q : Quat) (v : Vec3) :
  unit_quat q -> quat_apply q v = mulMV3 (quat2mat q) v.
Proof.
  intros U; rewrite (quat2mat_unit q U).
  destruct q as [x y z w], v as [a b c].
  unfold quat_apply, vadd, vscale, cross, mulMV3;
    cbn [qx qy qz qw v0 v1 v2 m00 m01 m02 m10 m11 m12 m20 m21 m22].
  f_equal; ring.
Qed.

Lemma quat_apply_quat2mat_sample :
  unit_quat (Q4 0 0 1 0) /\
  quat_apply (Q4 0 0 1 0) (V3 1 2 3) = mulMV3 (quat2mat (Q4 0 0 1 0)) (V3 1 2 3).
Proof.
  assert (U : unit_quat (Q4 0 0 1 0)) by (unfold unit_quat; simpl; lra).
  split; [exact U | exact (quat_apply_quat2mat _ _ U)].
Defined.

Lemma sin_cos_sq (x : R) : sin x * sin x + cos x * cos x = 1.
Proof. exact (sin2_cos2 x). Qed.

Lemma euler2quat_unit_aux (euler : Vec3) : unit_quat (euler2quat euler).
Proof.
  destruct euler as [r p y]; unfold unit_quat, euler2quat;
    cbn [qx qy qz qw v0 v1 v2].
  pose proof (sin_cos_sq (y * 0.5)) as Hy.
  pose proof (sin_cos_sq (r * 0.5)) as Hr.
  pose proof (sin_cos_sq (p * 0.5)) as Hp.
  set (cy := cos (y * 0.5)) in *; set (sy := sin (y * 0.5)) in *.
  set (cr := cos (r * 0.5)) in *; set (sr := sin (r * 0.5)) in *.
  set (cp := cos (p * 0.5)) in *; set (sp := sin (p * 0.5)) in *.
  transitivity ((sy * sy + cy * cy) * (sr * sr + cr * cr) * (sp * sp + cp * cp));
    [ring|].
  rewrite Hy, Hr, Hp; ring.
Qed.

(** X18.  [euler2quat] returns a unit quaternion for all angles, and
    [euler2mat] a rotation matrix; zero angles give the identity
    quaternion. *)
Theorem euler2quat_unit (euler : Vec3) :
  unit_quat (euler2quat euler) /\
  orthonormal (euler2mat euler) /\ det3 (euler2mat euler) = 1 /\
  euler2quat (V3 0 0 0) = Q4 0 0 0 1.
Proof.
  split; [apply euler2quat_unit_aux|].
  split; [apply quat2mat_is_rotation|].
  split; [apply quat2mat_is_rotation|].
  unfold euler2quat; cbn [v0 v1 v2].
  replace (0 * 0.5) with 0 by lra.
  rewrite sin_0, cos_0; f_equal; ring.
Qed.

Lemma vnorm_sq (v : Vec3) :
  vnorm v * vnorm v = v0 v * v0 v + v1 v * v1 v + v2 v * v2 v.
Proof. unfold vnorm; apply sqrt_sqrt; nra. Qed.

Lemma axisangle2quat_unit_aux (vec : Vec3) (eps : R) :
  0 <= eps -> unit_quat (axisangle2quat vec eps).
Proof.
  intros He; unfold axisangle2quat.
  destruct (ltR eps (vnorm vec)) eqn:E.
  - apply ltR_true in E.
    pose proof (vnorm_sq vec) as Hn.
    pose proof (sin_cos_sq (vnorm vec / 2)) as Hsc.
    destruct vec as [a b c]; cbn [v0 v1 v2] in *.
    set (n := vnorm (V3 a b c)) in *.
    set (s := sin (n / 2)) in *; set (k := cos (n / 2)) in *.
    unfold unit_quat; cbn [qx qy qz qw].
    transitivity ((a * a + b * b + c * c) * (s * s) / (n * n) + k * k);
      [field; lra|].
    rewrite <- Hn.
    transitivity (s * s + k * k); [field; lra | exact Hsc].
  - unfold unit_quat; cbn [qx qy qz qw]; ring.
Qed.

(** X19.  [axisangle2quat] returns a unit quaternion for every axis-angle
    vector, and the identity quaternion when the angle is at most [eps]. *)
Theorem axisangle2quat_unit (vec : Vec3) (eps : R) :
  0 <= eps ->
  unit_quat (axisangle2quat vec eps) /\
  (vnorm vec <= eps -> axisangle2quat vec eps = Q4 0 0 0 1).
Proof.
  intros He; split; [now apply axisangle2quat_unit_aux|].
  intros Hs; unfold axisangle2quat.
  destruct (ltR eps (vnorm vec)) eqn:E; [apply ltR_true in E; lra|].
  reflexivity.
Qed.

Lemma axisangle2quat_unit_sample :
  0 <= 1e-6 /\ unit_quat (axisangle2quat (V3 0 0 1) 1e-6).
Proof.
  assert (H : 0 <= 1e-6) by lra.
  split; [exact H | exact (proj1 (axisangle2quat_unit (V3 0 0 1) 1e-6 H))].
Defined.

(** X20.  Axis-angle round trip: for a rotation vector of angle above [eps]
    and below 2 pi, [quat2axisangle (axisangle2quat vec)] is [vec]. *)
Theorem axisangle_round_trip (vec : Vec3) (eps : R) :
  0 <= eps -> eps < vnorm vec -> vnorm vec < 2 * PI ->
  quat2axisangle (axisangle2quat vec eps) = vec.
Proof.
  intros He Hlo Hhi; unfold axisangle2quat.
  destruct (ltR eps (vnorm vec)) eqn:E; [|apply ltR_false in E; lra].
  set (n := vnorm vec) in *.
  assert (Hh : 0 < n / 2 < PI) by lra.
  assert (Hs : 0 < sin (n / 2)) by (apply sin_gt_0; lra).
  pose proof (COS_bound (n / 2)) as [Hc1 Hc2].
  pose proof (sin_cos_sq (n / 2)) as Hsc.
  unfold quat2axisangle; cbn [qx qy qz qw].
  assert (Ec : clip (cos (n / 2)) (-1) 1 = cos (n / 2)).
  { unfold clip. rewrite Rmax_left by lra. apply Rmin_left; lra. }
  rewrite Ec.
  assert (Ed : sqrt (1 - cos (n / 2) * cos (n / 2)) = sin (n / 2)).
  { replace (1 - cos (n / 2) * cos (n / 2)) with (sin (n / 2) * sin (n / 2))
      by lra.
    apply sqrt_square; lra. }
  rewrite Ed, acos_cos by lra.
  destruct (eqR (sin (n / 2)) 0) eqn:Z; [apply eqR_true in Z; lra|].
  destruct vec as [a b c]; cbn [v0 v1 v2].
  f_equal; field; lra.
Qed.

Lemma axisangle_round_trip_sample :
  0 <= 1e-6 /\ quat2axisangle (axisangle2quat (V3 0 0 1) 1e-6) = V3 0 0 1.
Proof.
  assert (N : vnorm (V3 0 0 1) = 1).
  { unfold vnorm; cbn [v0 v1 v2].
    replace (0 * 0 + 0 * 0 + 1 * 1) with 1 by ring. apply sqrt_1. }
  assert (H : 0 <= 1e-6) by lra.
  split; [exact H|].
  apply (axisangle_round_trip (V3 0 0 1) 1e-6 H); rewrite N;
    [lra | pose proof PI_RGT_0; pose proof PI2_3_2; lra].
Defined.

(** X21.  [quat2axisangle] maps the identity quaternion, and every
    quaternion whose scalar part is at least 1 in magnitude, to the zero
    vector (no division by the vanishing [den]). *)
Theorem quat2axisangle_identity (q : Quat) :
  1 <= Rabs (qw q) -> quat2axisangle q = V3 0 0 0.
Proof.
  intros H; unfold quat2axisangle.
  assert (Ew : clip (qw q) (-1) 1 * clip (qw q) (-1) 1 = 1).
  { unfold clip, Rabs in *.
    destruct (Rcase_abs (qw q)).
    - rewrite Rmax_right by lra. rewrite Rmin_left by lra. ring.
    - rewrite Rmax_left by lra. rewrite Rmin_right by lra. ring. }
  rewrite Ew.
  replace (1 - 1) with 0 by ring; rewrite sqrt_0.
  destruct (eqR 0 0) eqn:Z; [reflexivity | apply eqR_false in Z; lra].
Qed.

Lemma quat2axisangle_identity_sample :
  1 <= Rabs (qw (Q4 0 0 0 1)) /\ quat2axisangle (Q4 0 0 0 1) = V3 0 0 0.
Proof.
  assert (H : 1 <= Rabs (qw (Q4 0 0 0 1)))
    by (cbn [qw]; rewrite Rabs_R1; lra).
  split; [exact H | exact (quat2axisangle_identity _ H)].
Defined.

(** [deg2rad] and [rad2deg] are mutually inverse, and 180 degrees is
    pi. *)
Theorem deg2rad_rad2deg (x : R) :
  rad2deg (deg2rad x) = x /\ deg2rad (rad2deg x) = x /\ deg2rad 180 = PI.
Proof.
  pose proof PI_neq0.
  unfold rad2deg, deg2rad; repeat split; field; assumption.
Qed.

(** ** Norms and clipping *)

Lemma sumsq_nonneg (v : list R) : 0 <= sumsq v.
Proof. induction v as [|x v IH]; simpl; [lra | nra]. Qed.

Lemma sumsq_scale (v : list R) (c : R) :
  sumsq (map (fun x => x * c) v) = c * c * sumsq v.
Proof. induction v as [|x v IH]; simpl; [ring | rewrite IH; ring]. Qed.

Lemma anorm_scale (v : list R) (c : R) :
  0 <= c -> anorm (map (fun x => x * c) v) = c * anorm v.
Proof.
  intros Hc; unfold anorm; rewrite sumsq_scale.
  rewrite sqrt_mult by (try apply sumsq_nonneg; nra).
  now rewrite sqrt_square.
Qed.

Lemma map_div_scale (v : list R) (a d : R) :
  map (fun x => x * a / d) v = map (fun x => x * (a / d)) v.
Proof. apply map_ext; intros x; unfold Rdiv; ring. Qed.

(** X22.  [clip_translation] never returns a vector longer than a
    non-negative [limit]: when the input is longer it is rescaled to norm
    exactly [limit] and flagged, otherwise it is returned unchanged and
    unflagged. *)
Theorem clip_translation_bound (dpos : list R) (limit : R) :
  0 <= limit ->
  anorm (fst (clip_translation dpos limit)) <= limit /\
  (limit < anorm dpos ->
   snd (clip_translation dpos limit) = true /\
   anorm (fst (clip_translation dpos limit)) = limit) /\
  (anorm dpos <= limit -> clip_translation dpos limit = (dpos, false)).
Proof.
  intros Hl; unfold clip_translation.
  destruct (ltR limit (anorm dpos)) eqn:E.
  - apply ltR_true in E; cbn [fst snd].
    assert (N : anorm (map (fun x => x * limit / anorm dpos) dpos) = limit).
    { rewrite map_div_scale, anorm_scale
        by (apply Rmult_le_pos; [lra | apply Rlt_le, Rinv_0_lt_compat; lra]).
      field; lra. }
    rewrite N; repeat split; try lra; try (intros; lra).
  - apply ltR_false in E; cbn [fst snd].
    repeat split; try lra; try (intros; lra).
Qed.

Lemma clip_translation_bound_sample :
  0 <= 1 /\ anorm (fst (clip_translation [3; 0; 0] 1)) <= 1.
Proof.
  assert (H : 0 <= 1) by lra.
  split; [exact H | exact (proj1 (clip_translation_bound [3; 0; 0] 1 H))].
Defined.

(** X23.  [normalize] with a positive [eps] returns a vector of norm exactly
    1 when the input norm is at least [eps], and otherwise divides by
    [eps], giving norm below 1; the zero vector stays zero. *)
Theorem normalize_norm (v : list R) (eps : R) :
  0 < eps ->
  (eps <= anorm v -> anorm (normalize v eps) = 1) /\
  (anorm v < eps ->
   normalize v eps = map (fun x => x / eps) v /\
   anorm (normalize v eps) < 1).
Proof.
  intros He; unfold normalize; split; intros H.
  - destruct (ltR (anorm v) eps) eqn:E; [apply ltR_true in E; lra|].
    replace (map (fun x => x / anorm v) v)
      with (map (fun x => x * / anorm v) v)
      by (apply map_ext; intros; reflexivity).
    rewrite anorm_scale by (apply Rlt_le, Rinv_0_lt_compat; lra).
    field; lra.
  - destruct (ltR (anorm v) eps) eqn:E; [|apply ltR_false in E; lra].
    split; [reflexivity|].
    replace (map (fun x => x / eps) v)
      with (map (fun x => x * / eps) v)
      by (apply map_ext; intros; reflexivity).
    rewrite anorm_scale by (apply Rlt_le, Rinv_0_lt_compat; lra).
    apply (Rmult_lt_reg_l eps); [lra|].
    replace (eps * (/ eps * anorm v)) with (anorm v) by (field; lra).
    lra.
Qed.

Lemma normalize_norm_sample :
  0 < 1e-10 /\ anorm (normalize [0; 0; 0] 1e-10) < 1.
Proof.
  assert (H : 0 < 1e-10) by lra.
  assert (N : anorm [0; 0; 0] < 1e-10).
  { unfold anorm, sumsq; simpl.
    replace (0 * 0 + (0 * 0 + (0 * 0 + 0))) with 0 by ring.
    rewrite sqrt_0; lra. }
  split; [exact H|].
  exact (proj2 (proj2 (normalize_norm [0; 0; 0] 1e-10 H) N)).
Defined.

(** ** Pose error *)

(** X24.  The pose error of a pose against itself is the zero 6-vector, and
    in general its first three entries are the translation difference. *)
Theorem get_pose_error_self (P T : Mat4) :
  get_pose_error P P = [0; 0; 0; 0; 0; 0] /\
  firstn 3 (get_pose_error T P) =
  [h03 T - h03 P; h13 T - h13 P; h23 T - h23 P].
Proof.
  split.
  - destruct P as [a b c tx d e f ty g h i tz p0 p1 p2 p3].
    unfold get_pose_error, vsub, vscale, vadd, cross, col3, trans_col;
      cbn [v0 v1 v2 h00 h01 h02 h03 h10 h11 h12 h13 h20 h21 h22 h23].
    repeat (f_equal; try lra).
  - destruct P as [a b c tx d e f ty g h i tz p0 p1 p2 p3],
      T as [a' b' c' tx' d' e' f' ty' g' h' i' tz' p0' p1' p2' p3'].
    reflexivity.
Qed.

(** ** Exponential moving average as a recursion *)






(** ** Euler angles at and around gimbal lock *)






(** ** Building poses and rotations *)

(** X27.  [make_pose] of a rotation matrix is a valid pose; it is the
    inverse of splitting a valid pose into its blocks, and [pose2mat] is
    [make_pose] of the position and [quat2mat] of the quaternion. *)
Theorem make_pose_blocks (translation : Vec3) (rotation : Mat3) (P : Mat4)
    (quat : Quat) :
  (orthonormal rotation -> det3 rotation = 1 ->
   valid_pose (make_pose translation rotation)) /\
  (valid_pose P -> make_pose (trans_col P) (rot_block P) = P) /\
  pose2mat (translation, quat) = make_pose translation (quat2mat quat) /\
  trans_col (make_pose translation rotation) = translation /\
  rot_block (make_pose translation rotation) = rotation.
Proof.
  assert (Er : rot_block (make_pose translation rotation) = rotation)
    by (destruct rotation; reflexivity).
  split; [|split; [|split; [|split]]].
  - intros Ho Hd; unfold valid_pose; rewrite Er.
    repeat split; assumption.
  - intros (_ & _ & H30 & H31 & H32 & H33).
    destruct P as [a b c tx d e f ty g h i tz p0 p1 p2 p3].
    cbv beta iota zeta delta [h30 h31 h32 h33] in H30, H31, H32, H33.
    subst; reflexivity.
  - reflexivity.
  - destruct translation; reflexivity.
  - exact Er.
Qed.

Lemma rotation_matrix_blocks (angle : R) (direction : Vec3)
    (point : option Vec3) :
  vnorm direction <> 0 ->
  let r := rot_block (rotation_matrix angle direction point) in
  orthonormal r /\ det3 r = 1 /\ mulMV3 r direction = direction.
Proof.
  intros Hn r.
  pose proof (vnorm_sq direction) as Hsq.
  pose proof (sin_cos_sq angle) as Hsc.
  assert (Er : r = rot_block (rotation_matrix angle direction None)).
  { unfold r, rotation_matrix, make_pose, rot_block; reflexivity. }
  rewrite Er; clear Er r.
  destruct direction as [a b c]; cbn [v0 v1 v2] in *.
  set (n := vnorm (V3 a b c)) in *.
  set (s := sin angle) in *; set (k := cos angle) in *.
  assert (Hd : a / n * (a / n) + b / n * (b / n) + c / n * (c / n) = 1).
  { transitivity ((a * a + b * b + c * c) / (n * n)); [field; exact Hn|].
    rewrite <- Hsq; field; exact Hn. }
  assert (Ea : a = n * (a / n)) by (field; exact Hn).
  assert (Eb : b = n * (b / n)) by (field; exact Hn).
  assert (Ec : c = n * (c / n)) by (field; exact Hn).
  unfold rotation_matrix, make_pose, rot_block, orthonormal, det3, matmul3,
    transpose3, mulMV3, eye3;
    cbn [v0 v1 v2 m00 m01 m02 m10 m11 m12 m20 m21 m22
         h00 h01 h02 h10 h11 h12 h20 h21 h22].
  fold n; fold s; fold k.
  set (d0 := a / n) in *; set (d1 := b / n) in *; set (d2 := c / n) in *.
  clearbody d0 d1 d2 s k n.
  split; [apply M3_eq; nsatz | split; [nsatz|]].
  rewrite Ea, Eb, Ec.
  f_equal; nsatz.
Qed.

(** X28.  For a non-zero axis, [rotation_matrix] is a valid pose whose
    rotation block fixes the axis direction; with a [point] the
    transform fixes that point, without one the translation is zero. *)
Theorem rotation_matrix_valid (angle : R) (direction : Vec3)
    (point : option Vec3) :
  vnorm direction <> 0 ->
  let M := rotation_matrix angle direction point in
  valid_pose M /\
  mulMV3 (rot_block M) direction = direction /\
  match point with
  | Some p => vadd (mulMV3 (rot_block M) p) (trans_col M) = p
  | None => trans_col M = V3 0 0 0
  end.
Proof.
  intros Hn M.
  destruct (rotation_matrix_blocks angle direction point Hn) as (Ho & Hd & Hax).
  split; [|split; [exact Hax|]].
  - unfold valid_pose; repeat split; try assumption; reflexivity.
  - destruct point as [p|]; [|reflexivity].
    unfold M, rotation_matrix.
    set (r := M3 _ _ _ _ _ _ _ _ _).
    replace (rot_block (make_pose (vsub p (mulMV3 r p)) r)) with r
      by (unfold r; reflexivity).
    replace (trans_col (make_pose (vsub p (mulMV3 r p)) r))
      with (vsub p (mulMV3 r p))
      by (destruct (vsub p (mulMV3 r p)); reflexivity).
    destruct (mulMV3 r p) as [x y z], p as [p0 p1 p2].
    unfold vadd, vsub; cbn [v0 v1 v2]; f_equal; ring.
Qed.

Lemma rotation_matrix_valid_sample :
  vnorm (V3 0 0 1) <> 0 /\
  valid_pose (rotation_matrix 1 (V3 0 0 1) (Some (V3 1 2 3))).
Proof.
  assert (N : vnorm (V3 0 0 1) <> 0).
  { unfold vnorm; cbn [v0 v1 v2].
    replace (0 * 0 + 0 * 0 + 1 * 1) with 1 by ring. rewrite sqrt_1; lra. }
  split; [exact N|].
  exact (proj1 (rotation_matrix_valid 1 (V3 0 0 1) (Some (V3 1 2 3)) N)).
Defined.

(** ** Clipping a rotation *)




(** ** Sign ambiguity of the matrix-to-quaternion conversion *)

(** X30.  For a unit quaternion [q], [mat2quat (quat2mat q)] is [q], [-q], or
    (through the identity shortcut) the identity quaternion; in every case
    a unit quaternion. *)
Theorem mat2quat_quat2mat_sign (q : Quat) :
  unit_quat q ->
  (mat2quat (quat2mat q) = q \/
   mat2quat (quat2mat q) = qneg q \/
   mat2quat (quat2mat q) = Q4 0 0 0 1) /\
  unit_quat (mat2quat (quat2mat q)).
Proof.
  intros U.
  assert (U1 : unit_quat (Q4 0 0 0 1)) by (unfold unit_quat; cbn; ring).
  assert (D : mat2quat (quat2mat q) = q \/
              mat2quat (quat2mat q) = qneg q \/
              mat2quat (quat2mat q) = Q4 0 0 0 1).
  { unfold mat2quat.
    destruct (allclose3 (quat2mat q) eye3 1e-5 1e-6).
    - right; right; now apply qdiv_qnorm_unit.
    - destruct (mat2quat_branches_unit q U) as [E | E]; rewrite E.
      + left; now apply qdiv_qnorm_unit.
      + right; left; apply qdiv_qnorm_unit; now apply unit_quat_qneg. }
  split; [exact D|].
  destruct D as [E | [E | E]]; rewrite E;
    [exact U | now apply unit_quat_qneg | exact U1].
Qed.

Lemma mat2quat_quat2mat_sign_sample :
  unit_quat (Q4 0 0 1 0) /\ unit_quat (mat2quat (quat2mat (Q4 0 0 1 0))).
Proof.
  assert (U : unit_quat (Q4 0 0 1 0)) by (unfold unit_quat; simpl; lra).
  split; [exact U | exact (proj2 (mat2quat_quat2mat_sign _ U))].
Defined.
